(** * Frame conversion graph and spherical equatorial representation

    A shallow embedding of

    - [include/boost/astronomy/coordinate/conversion/conversion_graph.hpp]
      (the function [convert]: catalog graph, name resolution, breadth-first
      search, path reconstruction, matrix composition), and
    - [include/boost/astronomy/coordinate/rep/spherical_equatorial_representation.hpp]
      (the component getters and setters),

    together with the properties of both that the specification states. *)

From stdpp Require Import base tactics option list strings fin vector.

Set Default Proof Using "Type".

(** ** Outcomes of a C++ computation

    [Done a] is normal completion, [Throw what] a [std::range_error] carrying
    [what], [BadAlloc] the exception of a [std::vector] that cannot grow
    ([std::bad_alloc], or [std::length_error] at [max_size()]), [Undefined] a
    step whose behaviour C++ leaves undefined (reading through a null edge
    property, indexing outside an array), and [OutOfFuel] says that a loop
    was still running when the iteration budget of the model ended. *)
Inductive exec (A : Type) : Type :=
| Done (a : A)
| Throw (what : string)
| BadAlloc
| Undefined
| OutOfFuel.
Arguments Done {A} a.
Arguments Throw {A} what.
Arguments BadAlloc {A}.
Arguments Undefined {A}.
Arguments OutOfFuel {A}.

#[export] Instance exec_ret : MRet exec := λ A a, Done a.
#[export] Instance exec_bind : MBind exec := λ A B f m,
  match m with
  | Done a => f a
  | Throw what => Throw what
  | BadAlloc => BadAlloc
  | Undefined => Undefined
  | OutOfFuel => OutOfFuel
  end.

(** ** Collaborators of [convert]

    [boost::numeric::ublas] and [coordinate/utility/utility.hpp] are not part
    of the two files; [convert] only moves their values around.  The matrix
    type, [prod] and the matrix builders are therefore an interface. *)
Class Ublas (matrix : Type) := {
  prod : matrix → matrix → matrix
}.

Class Utility (CoordinateType Angle matrix : Type) := {
  (** [x * radians] *)
  radians : CoordinateType → Angle;
  (** [column_vector(u, v).get()] *)
  column_vector : Angle → Angle → matrix;
  (** [ha_dec_horizon(phi).get()] and the like *)
  ha_dec_horizon : Angle → matrix;
  ha_dec_ra_dec : Angle → matrix;
  ra_dec_to_ecliptic : Angle → matrix;
  ecliptic_to_ra_dec : Angle → matrix;
  ra_dec_to_galactic : matrix;
  galactic_to_ra_dec : matrix
}.

(** [boost::default_color_type], as far as the search uses it. *)
Inductive default_color_type : Type := white_color | gray_color | black_color.

#[export] Instance default_color_type_eq_dec : EqDecision default_color_type.
Proof. solve_decision. Defined.

(** [vertex_t]: with [vecS] a vertex descriptor is the index of the vertex. *)
Abbreviation vertex_t := nat.

Definition graph_size : nat := 5.

Section Graph.
Context {matrix : Type}.

Record CoordinateData : Type := { coordinate_name : string }.

Record EdgeData : Type := { edge_label : string; conv_matrix : matrix }.

(** An entry of a vertex's out-edge vector. *)
Record stored_edge : Type := { m_target : vertex_t; m_property : EdgeData }.

Record stored_vertex : Type := {
  m_out_edges : list stored_edge;
  m_vproperty : CoordinateData
}.

(** [adjacency_list<vecS, vecS, directedS, CoordinateData, EdgeData>]:
    the vector [m_vertices]. *)
Definition graph_t : Type := list stored_vertex.

Definition num_vertices (G : graph_t) : nat := length G.

Definition add_vertex (p : CoordinateData) (G : graph_t) : vertex_t * graph_t :=
  (num_vertices G, G ++ [ {| m_out_edges := []; m_vproperty := p |} ]).

(** [m_vertices.resize(n)] when [n] is beyond the current size. *)
Definition resize (n : nat) (G : graph_t) : graph_t :=
  G ++ replicate (n - num_vertices G)
         {| m_out_edges := []; m_vproperty := {| coordinate_name := "" |} |}.

Definition push_out_edge (e : stored_edge) (sv : stored_vertex) : stored_vertex :=
  {| m_out_edges := m_out_edges sv ++ [e]; m_vproperty := m_vproperty sv |}.

(** [add_edge(u, v, p, G)] for a vertex vector: grow the vector to hold both
    ends, then append to the out-edges of [u] (parallel edges are kept). *)
Definition add_edge (u v : vertex_t) (p : EdgeData) (G : graph_t) : graph_t :=
  alter (push_out_edge {| m_target := v; m_property := p |}) u
        (resize (S (u `max` v)) G).

(** The descriptor [boost::edge] hands back; [m_eproperty] is a pointer to
    the stored property, null ([None]) when there is no such edge. *)
Record edge_descriptor : Type := {
  m_source : vertex_t;
  m_etarget : vertex_t;
  m_eproperty : option EdgeData
}.

Fixpoint find_out_edge (v : vertex_t) (el : list stored_edge) : option EdgeData :=
  match el with
  | [] => None
  | e :: el' => if decide (m_target e = v) then Some (m_property e)
                else find_out_edge v el'
  end.

(** [boost::edge(u, v, G)]: the first out-edge of [u] with target [v], and
    whether there is one. *)
Definition edge (u v : vertex_t) (G : graph_t) : exec (edge_descriptor * bool) :=
  match G !! u with
  | None => Undefined
  | Some sv =>
      let it := find_out_edge v (m_out_edges sv) in
      Done ({| m_source := u; m_etarget := v; m_eproperty := it |},
            bool_decide (is_Some it))
  end.

(** [G[e]]: the bundled property behind the descriptor's pointer. *)
Definition edge_bundle (e : edge_descriptor) : exec EdgeData :=
  match m_eproperty e with
  | Some d => Done d
  | None => Undefined
  end.

(** All edges as (source, target), by vertex and then by insertion order. *)
Definition edges (G : graph_t) : list (vertex_t * vertex_t) :=
  mjoin (imap (λ u sv, (λ e, (u, m_target e)) <$> m_out_edges sv) G).

Definition num_edges (G : graph_t) : nat := length (edges G).

Definition vertex_names (G : graph_t) : list string :=
  (λ sv, coordinate_name (m_vproperty sv)) <$> G.

(** *** Name resolution (the two scanning loops) *)
Fixpoint scan_vertices (name : string) (vs : list stored_vertex) (v : vertex_t)
  : option vertex_t :=
  match vs with
  | [] => None
  | sv :: vs' =>
      if decide (name = coordinate_name (m_vproperty sv)) then Some v
      else scan_vertices name vs' (S v)
  end.

Definition resolve (name : string) (G : graph_t) : option vertex_t :=
  scan_vertices name G 0.

(** *** Arrays indexed by vertex ([boost::array<int, graph_size>], the colour
    map).  An index outside the array is undefined behaviour.  The [int]
    entries of [predecessors] only ever hold 0 or a vertex descriptor, so
    they are natural numbers here. *)
Definition array_get {A : Type} (a : list A) (i : nat) : exec A :=
  match a !! i with
  | Some x => Done x
  | None => Undefined
  end.

Definition array_put {A : Type} (a : list A) (i : nat) (x : A) : exec (list A) :=
  if decide (i < length a) then Done (<[i:=x]> a) else Undefined.

(** *** [boost::breadth_first_search] with
    [record_predecessors(predecessors.begin(), on_tree_edge)]

    The algorithm of the Boost Graph Library: every vertex starts white, the
    source turns gray and enters a FIFO queue; a dequeued vertex has its
    out-edges examined in their stored order and then turns black. *)
Record bfs_state : Type := {
  color : list default_color_type;
  predecessor : list nat;
  Q : list vertex_t
}.

(** The loop over the out-edges of [u]: a white target is a tree edge, whose
    visitor event writes [predecessor[v] = u]; the target turns gray and is
    queued. *)
Fixpoint examine_out_edges (u : vertex_t) (el : list stored_edge) (st : bfs_state)
  : exec bfs_state :=
  match el with
  | [] => Done st
  | e :: el' =>
      let v := m_target e in
      v_color ← array_get (color st) v;
      match v_color with
      | white_color =>
          preds ← array_put (predecessor st) v u;
          colors ← array_put (color st) v gray_color;
          examine_out_edges u el'
            {| color := colors; predecessor := preds; Q := Q st ++ [v] |}
      | _ => examine_out_edges u el' st
      end
  end.

(** [while (!Q.empty())]: one unit of fuel per dequeued vertex. *)
Fixpoint breadth_first_visit (fuel : nat) (G : graph_t) (st : bfs_state)
  : exec bfs_state :=
  match Q st with
  | [] => Done st
  | u :: Q' =>
      match fuel with
      | 0 => OutOfFuel
      | S fuel' =>
          sv ← array_get G u;
          st' ← examine_out_edges u (m_out_edges sv)
                  {| color := color st; predecessor := predecessor st; Q := Q' |};
          colors ← array_put (color st') u black_color;
          breadth_first_visit fuel' G
            {| color := colors; predecessor := predecessor st'; Q := Q st' |}
      end
  end.

Definition breadth_first_search (fuel : nat) (G : graph_t) (s : vertex_t)
    (predecessors : list nat) : exec bfs_state :=
  colors ← array_put (replicate (num_vertices G) white_color) s gray_color;
  breadth_first_visit fuel G
    {| color := colors; predecessor := predecessors; Q := [s] |}.

(** *** [std::vector<int> store_path]

    [std::vector<int>::max_size()]: a vector of this size cannot grow, and
    [push_back] on it throws.  The C++ library is not part of the repository;
    the value is the one of an LP64 implementation,
    [PTRDIFF_MAX / sizeof(int)].  (A [push_back] can fail earlier for lack of
    memory; the model has the failure at this size at the latest.) *)
Definition vector_max_size : N := 2305843009213693951.

(** [store_path.push_back(x)] *)
Definition push_back (store_path : list nat) (x : nat) : exec (list nat) :=
  if decide (N.of_nat (length store_path) < vector_max_size)%N
  then Done (store_path ++ [x])
  else BadAlloc.

(** *** Path reconstruction: [while (p != src_vertex)] with its [push_back]
    and step to the predecessor, and the [push_back] after the loop *)
Fixpoint store_path_loop (fuel : nat) (predecessors : list nat)
    (src_vertex : vertex_t) (p : nat) (store_path : list nat) : exec (list nat) :=
  if decide (p = src_vertex) then push_back store_path p
  else match fuel with
       | 0 => OutOfFuel
       | S fuel' =>
           store_path' ← push_back store_path p;
           p' ← array_get predecessors p;
           store_path_loop fuel' predecessors src_vertex p' store_path'
       end.

(** *** Matrix multiplication: the loop over [store_path] from [rbegin()],
    reading the pair [*it], [*(it+1)].  The second component of
    [boost::edge]'s result is not looked at. *)
Context `{!Ublas matrix}.

Fixpoint multiply_along (G : graph_t) (rpath : list nat) (ans : matrix)
  : exec matrix :=
  match rpath with
  | [] => Undefined
  | a :: rest =>
      match rest with
      | [] => Done ans
      | b :: _ =>
          e ← edge a b G;
          d ← edge_bundle e.1;
          multiply_along G rest (prod (conv_matrix d) ans)
      end
  end.

(** The search and the walk back, as [convert] runs them: the discovered
    path in source-to-destination order. *)
Definition discover (fuel : nat) (G : graph_t) (src_vertex dest_vertex : vertex_t)
  : exec (list nat) :=
  predecessors ← array_put (replicate graph_size 0) src_vertex src_vertex;
  st ← breadth_first_search fuel G src_vertex predecessors;
  store_path ← store_path_loop fuel (predecessor st) src_vertex dest_vertex [];
  mret (reverse store_path).

(** [convert] from the name resolution on, for the graph [G]. *)
Definition convert_in (fuel : nat) (G : graph_t) (src dest : string)
    (col_vec : matrix) : exec matrix :=
  match resolve src G with
  | None => Throw ("Not found " +:+ src)
  | Some src_vertex =>
      match resolve dest G with
      | None => Throw ("Not found " +:+ dest)
      | Some dest_vertex =>
          path ← discover fuel G src_vertex dest_vertex;
          multiply_along G path col_vec
      end
  end.
End Graph.

Arguments CoordinateData : clear implicits.
Arguments EdgeData : clear implicits.
Arguments stored_edge : clear implicits.
Arguments stored_vertex : clear implicits.
Arguments graph_t : clear implicits.
Arguments edge_descriptor : clear implicits.
Arguments bfs_state : clear implicits.

(** ** The catalog and [convert] *)
Section Convert.
Context {CoordinateType Angle matrix : Type}.
Context `{!Ublas matrix, !Utility CoordinateType Angle matrix}.

(** [coord_sys<2, bg::cs::spherical<bg::radian>, CoordinateType>]: only its
    point is read, through [bg::get<0>] and [bg::get<1>]. *)
Record coord_sys : Type := { get_point : CoordinateType * CoordinateType }.

(** The graph [G] after the five [add_vertex] and eight [add_edge] calls. *)
Definition catalog (phi st obliquity : Angle) : graph_t matrix :=
  let G := [] in
  let '(vd0, G) := add_vertex {| coordinate_name := "Horizon" |} G in
  let '(vd1, G) := add_vertex {| coordinate_name := "Equatorial_HA_Dec" |} G in
  let '(vd2, G) := add_vertex {| coordinate_name := "Equatorial_RA_Dec" |} G in
  let '(vd3, G) := add_vertex {| coordinate_name := "Ecliptic" |} G in
  let '(vd4, G) := add_vertex {| coordinate_name := "Galactic" |} G in
  let G := add_edge vd1 vd0
    {| edge_label := "Equatorial HA Dec to Horizon";
       conv_matrix := ha_dec_horizon phi |} G in
  let G := add_edge vd0 vd1
    {| edge_label := "Horizon to Equatorial HA Dec";
       conv_matrix := ha_dec_horizon phi |} G in
  let G := add_edge vd1 vd2
    {| edge_label := "Equatorial HA Dec to Equatorial RA Dec";
       conv_matrix := ha_dec_ra_dec st |} G in
  let G := add_edge vd2 vd1
    {| edge_label := "Equatorial RA Dec to Equatorial HA Dec";
       conv_matrix := ha_dec_ra_dec st |} G in
  let G := add_edge vd2 vd3
    {| edge_label := "Equatorial RA Dec to Ecliptic";
       conv_matrix := ra_dec_to_ecliptic obliquity |} G in
  let G := add_edge vd3 vd2
    {| edge_label := "Ecliptic to Equatorial RA Dec";
       conv_matrix := ecliptic_to_ra_dec obliquity |} G in
  let G := add_edge vd2 vd4
    {| edge_label := "Equatorial RA Dec to Galactic";
       conv_matrix := ra_dec_to_galactic |} G in
  let G := add_edge vd4 vd2
    {| edge_label := "Galactic to Equatorial RA Dec";
       conv_matrix := galactic_to_ra_dec |} G in
  G.

(** [col_vec.get()] *)
Definition col_vec (source_coordinate : coord_sys) : matrix :=
  column_vector (radians (get_point source_coordinate).1)
                (radians (get_point source_coordinate).2).

Definition convert (fuel : nat) (src dest : string) (phi st obliquity : Angle)
    (source_coordinate : coord_sys) : exec matrix :=
  convert_in fuel (catalog phi st obliquity) src dest (col_vec source_coordinate).
End Convert.

Arguments coord_sys : clear implicits.

(** ** A symbolic instance of the collaborators

    Matrices are the terms built from the names of the builders and [prod];
    a result of [convert] then shows which matrices were multiplied and in
    which order. *)
Module Symbolic.
Inductive term : Type :=
| ColumnVector (u v : nat)
| HaDecHorizon (phi : nat)
| HaDecRaDec (st : nat)
| RaDecToEcliptic (obliquity : nat)
| EclipticToRaDec (obliquity : nat)
| RaDecToGalactic
| GalacticToRaDec
| Prod (m v : term).

#[export] Instance term_ublas : Ublas term := {| prod := Prod |}.
#[export] Instance term_utility : Utility nat nat term := {|
  radians := id;
  column_vector := ColumnVector;
  ha_dec_horizon := HaDecHorizon;
  ha_dec_ra_dec := HaDecRaDec;
  ra_dec_to_ecliptic := RaDecToEcliptic;
  ecliptic_to_ra_dec := EclipticToRaDec;
  ra_dec_to_galactic := RaDecToGalactic;
  galactic_to_ra_dec := GalacticToRaDec
|}.

(** The catalog (for the angles 1, 2, 3) with the out-edges of every vertex
    in the opposite order. *)
Definition reversed_catalog : graph_t term :=
  (λ sv, {| m_out_edges := reverse (m_out_edges sv);
            m_vproperty := m_vproperty sv |}) <$> catalog (matrix := term) 1 2 3.
End Symbolic.

(** ** Paths of a graph, in the words of the specification *)
Section Paths.
Context {matrix : Type}.
Implicit Types (G : graph_t matrix) (p q : list nat).

(** There is an edge registered from [u] to [v]. *)
Definition has_edge G (u v : vertex_t) : Prop := (u, v) ∈ edges G.

#[export] Instance has_edge_dec G u v : Decision (has_edge G u v).
Proof. unfold has_edge. apply _. Defined.

(** The consecutive pairs [(a, b)] of a vertex sequence, in order. *)
Definition consecutive p : list (vertex_t * vertex_t) := zip p (tail p).

(** [p] is a path of [G] from [s] to [d]. *)
Definition path_from_to G (s d : vertex_t) p : Prop :=
  head p = Some s ∧ last p = Some d ∧
  Forall (λ ab, has_edge G ab.1 ab.2) (consecutive p).

#[export] Instance path_from_to_dec G s d p : Decision (path_from_to G s d p).
Proof. unfold path_from_to. apply _. Defined.

(** Number of edges of a path. *)
Definition hops p : nat := length (consecutive p).

(** The undirected skeleton: each connected pair once, smaller end first. *)
Definition skeleton G : list (vertex_t * vertex_t) :=
  remove_dups ((λ uv, (uv.1 `min` uv.2, uv.1 `max` uv.2)) <$> edges G).

(** A levelling [lev] starts at 0 on [s] and grows by at most one along every
    edge; it bounds every path from [s] from below. *)
Definition levelling G (s : vertex_t) (lev : vertex_t → nat) : Prop :=
  lev s = 0 ∧ Forall (λ uv, lev uv.2 ≤ S (lev uv.1)) (edges G).

(** [G'] has the vertices of [G], each with the same out-edges in some
    order: what another order of the [add_edge] calls would build, and so
    another order in which the search meets the edges. *)
Definition same_up_to_order G (G' : graph_t matrix) : Prop :=
  Forall2 (λ sv sv', m_vproperty sv' = m_vproperty sv ∧
                      m_out_edges sv' ≡ₚ m_out_edges sv) G G'.
End Paths.

(** ** The composition the specification describes *)
Section Composition.
Context {CoordinateType Angle matrix : Type}.
Context `{!Ublas matrix, !Utility CoordinateType Angle matrix}.

(** The matrix registered for the directed pair [(a, b)]: the table of the
    eight [add_edge] calls, by the descriptors [vd0] .. [vd4]. *)
Definition registered_matrix (phi st obliquity : Angle) (a b : vertex_t)
  : option matrix :=
  match a, b with
  | 1, 0 => Some (ha_dec_horizon phi)
  | 0, 1 => Some (ha_dec_horizon phi)
  | 1, 2 => Some (ha_dec_ra_dec st)
  | 2, 1 => Some (ha_dec_ra_dec st)
  | 2, 3 => Some (ra_dec_to_ecliptic obliquity)
  | 3, 2 => Some (ecliptic_to_ra_dec obliquity)
  | 2, 4 => Some ra_dec_to_galactic
  | 4, 2 => Some galactic_to_ra_dec
  | _, _ => None
  end.

(** [vector := matrix(a, b) * vector] for each pair in turn. *)
Fixpoint compose_along (reg : vertex_t → vertex_t → option matrix)
    (pairs : list (vertex_t * vertex_t)) (vector : matrix) : option matrix :=
  match pairs with
  | [] => Some vector
  | (a, b) :: pairs' =>
      m ← reg a b;
      compose_along reg pairs' (prod m vector)
  end.

(** The path [convert] finds in the catalog with the budget the catalog
    needs, and its number of edges. *)
Definition discovered (phi st obliquity : Angle) (s d : vertex_t) : list nat :=
  match discover graph_size (catalog phi st obliquity) s d with
  | Done path => path
  | _ => []
  end.

Definition level (phi st obliquity : Angle) (s v : vertex_t) : nat :=
  hops (discovered phi st obliquity s v).
End Composition.

(** ** A catalog with a disconnected part

    The same five vertices, with only the pair Equatorial_HA_Dec /
    Equatorial_RA_Dec connected; built with the operations [convert] uses. *)
Module Disconnected.
Import Symbolic.

Definition G : graph_t term :=
  let G := [] in
  let '(vd0, G) := add_vertex {| coordinate_name := "Horizon" |} G in
  let '(vd1, G) := add_vertex {| coordinate_name := "Equatorial_HA_Dec" |} G in
  let '(vd2, G) := add_vertex {| coordinate_name := "Equatorial_RA_Dec" |} G in
  let '(vd3, G) := add_vertex {| coordinate_name := "Ecliptic" |} G in
  let '(vd4, G) := add_vertex {| coordinate_name := "Galactic" |} G in
  let G := add_edge vd1 vd2
    {| edge_label := "Equatorial HA Dec to Equatorial RA Dec";
       conv_matrix := HaDecRaDec 0 |} G in
  let G := add_edge vd2 vd1
    {| edge_label := "Equatorial RA Dec to Equatorial HA Dec";
       conv_matrix := HaDecRaDec 0 |} G in
  G.
End Disconnected.

(** ** [spherical_equatorial_representation] *)
Section SphericalEquatorial.
Context {CoordinateType LatQuantity LonQuantity DistQuantity : Type}.

(** The conversions of [boost::units] the accessors go through:
    [static_cast<bu::quantity<bu::si::plane_angle, CoordinateType>>(q).value()]
    and [static_cast<Q>(bu::quantity<..>::from_value(x))] for the two angles,
    [.value()] and [from_value] for the distance. *)
Variable lat_si_value : LatQuantity → CoordinateType.
Variable lat_from_si_value : CoordinateType → LatQuantity.
Variable lon_si_value : LonQuantity → CoordinateType.
Variable lon_from_si_value : CoordinateType → LonQuantity.
Variable dist_value : DistQuantity → CoordinateType.
Variable dist_from_value : CoordinateType → DistQuantity.

(** [bg::model::point<CoordinateType, 3, ..>]: the array [m_values[3]];
    [bg::get<K>] and [bg::set<K>] take an index [K < 3]. *)
Definition point_t : Type := vec CoordinateType 3.

Definition bg_get (K : fin 3) (p : point_t) : CoordinateType := p !!! K.
Definition bg_set (K : fin 3) (p : point_t) (value : CoordinateType) : point_t :=
  vinsert K value p.

(** The object: the member [point] of [base_representation]. *)
Record spherical_equatorial_representation : Type := { point : point_t }.

Definition get_lat (this : spherical_equatorial_representation) : LatQuantity :=
  lat_from_si_value (bg_get 0%fin (point this)).

Definition get_lon (this : spherical_equatorial_representation) : LonQuantity :=
  lon_from_si_value (bg_get 1%fin (point this)).

Definition get_dist (this : spherical_equatorial_representation) : DistQuantity :=
  dist_from_value (bg_get 2%fin (point this)).

Definition get_lat_lon_dist (this : spherical_equatorial_representation)
  : LatQuantity * LonQuantity * DistQuantity :=
  (get_lat this, get_lon this, get_dist this).

Definition set_lat (lat : LatQuantity) (this : spherical_equatorial_representation)
  : spherical_equatorial_representation :=
  {| point := bg_set 0%fin (point this) (lat_si_value lat) |}.

Definition set_lon (lon : LonQuantity) (this : spherical_equatorial_representation)
  : spherical_equatorial_representation :=
  {| point := bg_set 1%fin (point this) (lon_si_value lon) |}.

Definition set_dist (distance : DistQuantity)
    (this : spherical_equatorial_representation)
  : spherical_equatorial_representation :=
  {| point := bg_set 2%fin (point this) (dist_value distance) |}.

Definition set_lat_lon_dist (lat : LatQuantity) (lon : LonQuantity)
    (distance : DistQuantity) (this : spherical_equatorial_representation)
  : spherical_equatorial_representation :=
  set_dist distance (set_lon lon (set_lat lat this)).
End SphericalEquatorial.

(** ** Construction of a [spherical_equatorial_representation] *)
Section SphericalEquatorialConstruct.
Context {CoordinateType LatQuantity LonQuantity DistQuantity : Type}.
Variable lat_si_value : LatQuantity → CoordinateType.
Variable lat_from_si_value : CoordinateType → LatQuantity.
Variable lon_si_value : LonQuantity → CoordinateType.
Variable lon_from_si_value : CoordinateType → LonQuantity.
Variable dist_value : DistQuantity → CoordinateType.
Variable dist_from_value : CoordinateType → DistQuantity.

(** The constructor from three quantities: [this->set_lat_lon_dist(lat, lon,
    distance)] on the object as its default construction left it; what the
    point holds at that moment is [uninitialized]. *)
Definition construct (uninitialized : point_t) (lat : LatQuantity)
    (lon : LonQuantity) (distance : DistQuantity)
  : @spherical_equatorial_representation CoordinateType :=
  set_lat_lon_dist lat_si_value lon_si_value dist_value lat lon distance
    {| point := uninitialized |}.

(** [make_spherical_equatorial_representation(lat, lon, dist)]. *)
Definition make_spherical_equatorial_representation (uninitialized : point_t)
    (lat : LatQuantity) (lon : LonQuantity) (dist : DistQuantity)
  : @spherical_equatorial_representation CoordinateType :=
  construct uninitialized lat lon dist.

(** [make_spherical_equatorial_representation<ReturnCoordinateType,
    ReturnLatQuantity, ReturnLonQuantity, ReturnDistQuantity>(other)]: the
    three getters of [other], each cast to the quantity asked for, given to
    the function above for the types asked for.  The casts are
    [static_cast]s of [boost::units]. *)
Definition make_spherical_equatorial_representation_as
    {ReturnCoordinateType ReturnLatQuantity ReturnLonQuantity
     ReturnDistQuantity : Type}
    (return_lat_si_value : ReturnLatQuantity → ReturnCoordinateType)
    (return_lon_si_value : ReturnLonQuantity → ReturnCoordinateType)
    (return_dist_value : ReturnDistQuantity → ReturnCoordinateType)
    (cast_lat : LatQuantity → ReturnLatQuantity)
    (cast_lon : LonQuantity → ReturnLonQuantity)
    (cast_dist : DistQuantity → ReturnDistQuantity)
    (uninitialized : @point_t ReturnCoordinateType)
    (other : @spherical_equatorial_representation CoordinateType)
  : @spherical_equatorial_representation ReturnCoordinateType :=
  set_lat_lon_dist return_lat_si_value return_lon_si_value return_dist_value
    (cast_lat (get_lat lat_from_si_value other))
    (cast_lon (get_lon lon_from_si_value other))
    (cast_dist (get_dist dist_from_value other))
    {| point := uninitialized |}.
End SphericalEquatorialConstruct.

(** ** What the breadth-first search maintains *)
Section SearchSpec.
Context {matrix : Type}.
Implicit Types (G : graph_t matrix) (colors : list default_color_type).

(** Every edge ends in a vertex of the graph (it starts in one by the way
    edges are stored). *)
Definition graph_wf G : Prop :=
  Forall (λ uv, uv.2 < num_vertices G) (edges G).

#[export] Instance graph_wf_dec G : Decision (graph_wf G).
Proof. unfold graph_wf. apply _. Defined.

(** The matrix [boost::edge(a, b, G)] leads to: the one of the first edge
    registered from [a] to [b]. *)
Definition first_registered G (a b : vertex_t) : option matrix :=
  sv ← G !! a; conv_matrix <$> find_out_edge b (m_out_edges sv).

(** The vertex was discovered: its colour is gray or black. *)
Definition nonwhite colors (v : vertex_t) : Prop :=
  ∃ c, colors !! v = Some c ∧ c ≠ white_color.

Definition count_nonwhite colors : nat :=
  sum_list_with (λ c, if decide (c = white_color) then 0 else 1) colors.

Definition count_nonblack colors : nat :=
  sum_list_with (λ c, if decide (c = black_color) then 0 else 1) colors.

(** The depths with the one of [v] set to [k]. *)
Definition set_rank (rank : vertex_t → nat) (v : vertex_t) (k : nat)
  : vertex_t → nat :=
  λ w, if decide (w = v) then k else rank w.

(** The state of the search from [s], with the vertices [A] waiting (the
    vertex whose out-edges are being examined, then the queue) and the depth
    [rank] at which each discovered vertex was found. *)
Record search_tree G (s : vertex_t) (rank : vertex_t → nat) (A : list vertex_t)
    colors (preds : list nat) : Prop := {
  tree_wf : graph_wf G;
  tree_size : num_vertices G ≤ graph_size;
  tree_colors : length colors = num_vertices G;
  tree_preds : length preds = graph_size;
  tree_gray : ∀ v, colors !! v = Some gray_color ↔ v ∈ A;
  tree_nodup : NoDup A;
  tree_source : nonwhite colors s ∧ preds !! s = Some s ∧ rank s = 0;
  tree_parent : ∀ v, nonwhite colors v → v ≠ s →
    ∃ u, preds !! v = Some u ∧ has_edge G u v ∧ nonwhite colors u ∧
         rank v = S (rank u);
  tree_bound : ∀ v, nonwhite colors v → rank v < count_nonwhite colors;
  tree_closed : ∀ u v, colors !! u = Some black_color → has_edge G u v →
    nonwhite colors v ∧ rank v ≤ S (rank u);
  tree_sorted : ∀ i j a b, A !! i = Some a → A !! j = Some b → i ≤ j →
    rank a ≤ rank b;
  tree_front : ∀ a v, head A = Some a → nonwhite colors v → rank v ≤ S (rank a)
}.
End SearchSpec.

(** ** Fuel: a loop that ended keeps its outcome under a larger budget *)
Section Fuel.
Context {matrix : Type} `{!Ublas matrix}.
Implicit Types (G : graph_t matrix).

Lemma exec_bind_not_out_of_fuel {A B : Type} (m : exec A) (f : A → exec B) :
  m ≫= f ≠ OutOfFuel → m ≠ OutOfFuel.
Proof. by destruct m. Qed.

Lemma breadth_first_visit_mono n m G st r :
  breadth_first_visit n G st = r → r ≠ OutOfFuel → n ≤ m →
  breadth_first_visit m G st = r.
Proof.
  revert m st. induction n as [|n IH]; intros m st Hrun Hr Hle.
  - destruct m; simpl in *; destruct (Q st); congruence.
  - destruct m as [|m]; [lia|]. simpl in *.
    destruct (Q st) as [|u Q']; [done|].
    destruct (array_get G u) as [sv| | | |]; simpl in *; try done.
    destruct (examine_out_edges _ _ _) as [st'| | | |]; simpl in *; try done.
    destruct (array_put _ _ _) as [colors| | | |]; simpl in *; try done.
    apply IH; [done|done|lia].
Qed.

Lemma breadth_first_search_mono n m G s preds r :
  breadth_first_search n G s preds = r → r ≠ OutOfFuel → n ≤ m →
  breadth_first_search m G s preds = r.
Proof.
  unfold breadth_first_search. intros Hrun Hr Hle.
  destruct (array_put _ s gray_color) as [colors| | | |]; simpl in *; try done.
  by apply breadth_first_visit_mono with n.
Qed.

Lemma store_path_loop_mono n m preds s p acc r :
  store_path_loop n preds s p acc = r → r ≠ OutOfFuel → n ≤ m →
  store_path_loop m preds s p acc = r.
Proof.
  revert m p acc. induction n as [|n IH]; intros m p acc Hrun Hr Hle.
  - destruct m; simpl in *; case_decide; congruence.
  - destruct m as [|m]; [lia|]. simpl in *. case_decide; [done|].
    destruct (push_back acc p) as [acc'| | | |]; simpl in *; try done.
    destruct (array_get preds p) as [p'| | | |]; simpl in *; try done.
    apply IH; [done|done|lia].
Qed.

Lemma discover_mono n m G s d r :
  discover n G s d = r → r ≠ OutOfFuel → n ≤ m → discover m G s d = r.
Proof.
  unfold discover, breadth_first_search. intros Hrun Hr Hle.
  destruct (array_put (replicate graph_size 0) s s) as [preds| | | |];
    simpl in *; try done.
  destruct (array_put (replicate _ white_color) s gray_color) as [colors| | | |];
    simpl in *; try done.
  destruct (breadth_first_visit n G _) as [st| | | |] eqn:Hbfs;
    simpl in *; try congruence;
    rewrite (breadth_first_visit_mono n m _ _ _ Hbfs) by (done || lia);
    simpl; try done.
  destruct (store_path_loop n _ _ _ _) as [sp| | | |] eqn:Hwalk;
    simpl in *; try congruence;
    rewrite (store_path_loop_mono n m _ _ _ _ _ Hwalk) by (done || lia);
    simpl; done.
Qed.

Lemma multiply_along_not_out_of_fuel G rpath ans :
  multiply_along G rpath ans ≠ OutOfFuel.
Proof.
  revert ans. induction rpath as [|a rest IH]; intros ans; [done|].
  simpl. destruct rest as [|b rest']; [done|].
  unfold edge. destruct (G !! a) as [sv|]; [|done]. simpl.
  unfold edge_bundle. simpl. destruct (find_out_edge _ _); [|done].
  simpl. apply IH.
Qed.

Lemma convert_in_mono n m G src dest v r :
  convert_in n G src dest v = r → r ≠ OutOfFuel → n ≤ m →
  convert_in m G src dest v = r.
Proof.
  unfold convert_in. intros Hrun Hr Hle.
  destruct (resolve src G) as [sv|]; [|done].
  destruct (resolve dest G) as [dv|]; [|done].
  destruct (discover n G sv dv) as [path| | | |] eqn:Hd;
    simpl in *; try congruence;
    rewrite (discover_mono n m _ _ _ _ Hd) by (done || lia); done.
Qed.
End Fuel.

(** ** Name resolution *)
Section Resolution.
Context {matrix : Type}.
Implicit Types (G : graph_t matrix).

Lemma scan_vertices_None name (vs : list (stored_vertex matrix)) v :
  scan_vertices name vs v = None ↔ name ∉ vertex_names vs.
Proof.
  revert v. induction vs as [|sv vs IH]; intros v; simpl.
  - split; [intros _; apply not_elem_of_nil | done].
  - case_decide as Hname.
    + split; [done|]. intros []. subst. apply elem_of_cons. by left.
    + rewrite IH. unfold vertex_names. simpl. rewrite not_elem_of_cons. tauto.
Qed.

Lemma resolve_None name G : resolve name G = None ↔ name ∉ vertex_names G.
Proof. apply scan_vertices_None. Qed.

Lemma resolve_is_Some name G : name ∈ vertex_names G → is_Some (resolve name G).
Proof.
  intros Hin. destruct (resolve name G) eqn:Hr; [by eexists|].
  by apply resolve_None in Hr.
Qed.

Lemma scan_vertices_lookup name (vs : list (stored_vertex matrix)) v0 v :
  scan_vertices name vs v0 = Some v →
  v0 ≤ v ∧ vertex_names vs !! (v - v0) = Some name.
Proof.
  revert v0. induction vs as [|sv vs IH]; intros v0; simpl; [done|].
  case_decide as Hname.
  - intros [= <-]. rewrite Nat.sub_diag. simpl. by subst.
  - intros [Hle Hl]%IH. split; [lia|].
    by replace (v - v0) with (S (v - S v0)) by lia.
Qed.

(** A resolved name is the name of the vertex found. *)
Lemma resolve_Some name G v :
  resolve name G = Some v → vertex_names G !! v = Some name.
Proof.
  intros [_ Hl]%scan_vertices_lookup. by rewrite Nat.sub_0_r in Hl.
Qed.
End Resolution.

Section CatalogResolution.
Context {CoordinateType Angle matrix : Type}.
Context `{!Ublas matrix, !Utility CoordinateType Angle matrix}.
Variables phi st obliquity : Angle.

Lemma vertex_names_catalog :
  vertex_names (catalog phi st obliquity) =
  ["Horizon"; "Equatorial_HA_Dec"; "Equatorial_RA_Dec"; "Ecliptic"; "Galactic"].
Proof. reflexivity. Qed.

Lemma edges_catalog :
  edges (catalog phi st obliquity) =
  [(0, 1); (1, 0); (1, 2); (2, 1); (2, 3); (2, 4); (3, 2); (4, 2)].
Proof. reflexivity. Qed.

(** The vertex a registered name resolves to. *)
Lemma resolve_catalog_inv name v :
  resolve name (catalog phi st obliquity) = Some v →
  (name, v) ∈ [("Horizon", 0); ("Equatorial_HA_Dec", 1);
               ("Equatorial_RA_Dec", 2); ("Ecliptic", 3); ("Galactic", 4)].
Proof.
  intros Hr. pose proof (resolve_Some _ _ _ Hr) as Hl.
  rewrite vertex_names_catalog in Hl.
  do 5 (destruct v as [|v]; [simplify_eq/=; repeat constructor|]). done.
Qed.
End CatalogResolution.

(** ** Paths and levels *)
Section Levels.
Context {matrix : Type}.
Implicit Types (G : graph_t matrix) (p q : list nat).

Lemma consecutive_cons a b p : consecutive (a :: b :: p) = (a, b) :: consecutive (b :: p).
Proof. reflexivity. Qed.

Lemma levelling_path_aux G lev p a d :
  Forall (λ uv, lev uv.2 ≤ S (lev uv.1)) (edges G) →
  head p = Some a → last p = Some d →
  Forall (λ ab, has_edge G ab.1 ab.2) (consecutive p) →
  lev d ≤ lev a + hops p.
Proof.
  intros Hlev. revert a. induction p as [|x p IH]; intros a Hhd Hlast Hpath; [done|].
  simpl in Hhd. simplify_eq. destruct p as [|b p].
  - simpl in Hlast. simplify_eq. lia.
  - rewrite consecutive_cons in Hpath. apply Forall_cons in Hpath as [Hab Hpath].
    rewrite last_cons_cons in Hlast.
    specialize (IH b eq_refl Hlast Hpath).
    rewrite Forall_forall in Hlev. specialize (Hlev _ Hab). simpl in *.
    unfold hops in *. rewrite consecutive_cons. simpl. lia.
Qed.

Lemma levelling_path G s d lev p :
  levelling G s lev → path_from_to G s d p → lev d ≤ hops p.
Proof.
  intros [Hs Hlev] (Hhd & Hlast & Hpath).
  pose proof (levelling_path_aux G lev p s d Hlev Hhd Hlast Hpath). lia.
Qed.
End Levels.

(** ** The catalog graph and the paths [convert] discovers in it *)
Section Catalog.
Context {CoordinateType Angle matrix : Type}.
Context `{!Ublas matrix, !Utility CoordinateType Angle matrix}.
Variables phi st obliquity : Angle.

Local Abbreviation cat := (catalog phi st obliquity).
Local Abbreviation found := (discovered phi st obliquity).
Local Abbreviation lvl := (level phi st obliquity).

Lemma discover_catalog s d fuel :
  s < graph_size → d < graph_size → graph_size ≤ fuel →
  discover fuel cat s d = Done (found s d).
Proof.
  intros Hs Hd Hfuel. apply discover_mono with graph_size; [|done|done].
  unfold graph_size in Hs, Hd.
  do 5 (destruct s as [|s]; [do 5 (destruct d as [|d]; [reflexivity|]); lia|]).
  lia.
Qed.

Lemma discovered_path s d :
  s < graph_size → d < graph_size → path_from_to cat s d (found s d).
Proof.
  intros Hs Hd. unfold graph_size in Hs, Hd.
  do 5 (destruct s as [|s];
    [do 5 (destruct d as [|d]; [compute_done|]); lia|]).
  lia.
Qed.

Lemma level_levelling s : s < graph_size → levelling cat s (lvl s).
Proof.
  intros Hs. unfold graph_size in Hs.
  do 5 (destruct s as [|s]; [split; [reflexivity|];
    rewrite edges_catalog; repeat constructor|]).
  lia.
Qed.

(** Every path of the catalog has at least as many edges as the discovered
    one between the same ends. *)
Lemma discovered_shortest s d q :
  s < graph_size → path_from_to cat s d q → hops (found s d) ≤ hops q.
Proof.
  intros Hs Hq.
  exact (levelling_path cat s d (lvl s) q (level_levelling s Hs) Hq).
Qed.

Lemma resolve_catalog_lt name v : resolve name cat = Some v → v < graph_size.
Proof.
  intros Hin%resolve_catalog_inv.
  repeat (apply elem_of_cons in Hin as [Hin|Hin]; [simplify_eq; unfold graph_size; lia|]).
  by apply elem_of_nil in Hin.
Qed.
(** C8: every call of [convert] builds, whatever its arguments, a graph with
    exactly the five vertices Horizon, Equatorial_HA_Dec, Equatorial_RA_Dec,
    Ecliptic and Galactic (in this order of descriptors) and exactly eight
    directed edges, which are four direct relationships in both directions
    each; there is no edge, in either direction, between Ecliptic and
    Galactic, between Horizon and Ecliptic, or between Horizon and
    Galactic. *)
Theorem catalog_shape :
  num_vertices cat = 5 ∧
  vertex_names cat =
    ["Horizon"; "Equatorial_HA_Dec"; "Equatorial_RA_Dec"; "Ecliptic"; "Galactic"] ∧
  (λ name, resolve name cat) <$> vertex_names cat = Some <$> [0; 1; 2; 3; 4] ∧
  num_edges cat = 8 ∧
  (let relationships := [(0, 1); (1, 2); (2, 3); (2, 4)] in
   edges cat ≡ₚ relationships ++ (prod_swap <$> relationships)) ∧
  ¬ has_edge cat 3 4 ∧ ¬ has_edge cat 4 3 ∧
  ¬ has_edge cat 0 3 ∧ ¬ has_edge cat 3 0 ∧
  ¬ has_edge cat 0 4 ∧ ¬ has_edge cat 4 0.
Proof.
  split_and!; try reflexivity; try compute_done.
Qed.

(** C5: a source name that is not registered makes [convert] fail with the
    range error whose message is "Not found " followed by that name, whatever
    the destination is (so also when both names are unknown); a registered
    source with an unregistered destination fails in the same way with the
    destination's name. *)
Theorem convert_frame_not_found fuel src dest source_coordinate :
  (src ∉ vertex_names cat →
   convert fuel src dest phi st obliquity source_coordinate
   = Throw ("Not found " +:+ src)) ∧
  (src ∈ vertex_names cat → dest ∉ vertex_names cat →
   convert fuel src dest phi st obliquity source_coordinate
   = Throw ("Not found " +:+ dest)).
Proof.
  unfold convert, convert_in. split.
  - intros Hsrc%resolve_None. by rewrite Hsrc.
  - intros [sv Hsrc]%resolve_is_Some Hdest%resolve_None.
    by rewrite Hsrc, Hdest.
Qed.

(** C4: for a registered frame name [X], [convert] from [X] to [X] returns the
    input column vector as it is: the discovered path is the single vertex
    [X], it has no edge, and no matrix is applied. *)
Theorem convert_same_frame X fuel source_coordinate :
  X ∈ vertex_names cat → graph_size ≤ fuel →
  (∃ x, resolve X cat = Some x ∧ discover fuel cat x x = Done [x] ∧ hops [x] = 0) ∧
  convert fuel X X phi st obliquity source_coordinate
  = Done (col_vec source_coordinate).
Proof.
  intros [x Hx]%resolve_is_Some Hfuel.
  assert (discover fuel cat x x = Done [x]) as Hdisc.
  { apply discover_mono with graph_size; [|done|done].
    apply resolve_catalog_lt in Hx. unfold graph_size in Hx.
    do 5 (destruct x as [|x]; [reflexivity|]). lia. }
  split; [by exists x|].
  unfold convert, convert_in. by rewrite Hx, Hdisc.
Qed.

(** The table holds, for each pair, the matrix of the edge the graph has for
    it, and nothing for a pair without an edge. *)
Lemma registered_matrix_catalog a b :
  registered_matrix phi st obliquity a b
  = sv ← cat !! a; conv_matrix <$> find_out_edge b (m_out_edges sv).
Proof.
  do 5 (destruct a as [|a]; [do 5 (destruct b as [|b]; [reflexivity|]); reflexivity|]).
  reflexivity.
Qed.

(** The composition along a discovered path, as the code runs it and as the
    table of registered matrices gives it. *)
Lemma multiply_along_discovered sv dv v :
  sv < graph_size → dv < graph_size →
  ∃ M,
    head (found sv dv) = Some sv ∧ last (found sv dv) = Some dv ∧
    compose_along (registered_matrix phi st obliquity)
      (consecutive (found sv dv)) v = Some M ∧
    multiply_along cat (found sv dv) v = Done M.
Proof.
  intros Hsv Hdv. unfold graph_size in Hsv, Hdv.
  do 5 (destruct sv as [|sv];
    [do 5 (destruct dv as [|dv]; [eexists; split_and!; reflexivity|]); lia|]).
  lia.
Qed.

(** C1: for registered source and destination names, [convert] returns the
    input column vector multiplied from the left, for each consecutive pair
    [(a, b)] of the discovered path taken from the source towards the
    destination, by the matrix that was registered for the directed pair
    [(a, b)] itself. *)
Theorem convert_composes_along_path src dest sv dv fuel source_coordinate :
  resolve src cat = Some sv → resolve dest cat = Some dv → graph_size ≤ fuel →
  (∃ path M,
     discover fuel cat sv dv = Done path ∧
     head path = Some sv ∧ last path = Some dv ∧
     compose_along (registered_matrix phi st obliquity) (consecutive path)
       (col_vec source_coordinate) = Some M ∧
     convert fuel src dest phi st obliquity source_coordinate = Done M) ∧
  (∀ a b,
     registered_matrix phi st obliquity a b
     = sv ← cat !! a; conv_matrix <$> find_out_edge b (m_out_edges sv)).
Proof.
  intros Hsrc Hdest Hfuel. split; [|apply registered_matrix_catalog].
  pose proof (resolve_catalog_lt _ _ Hsrc) as Hsv.
  pose proof (resolve_catalog_lt _ _ Hdest) as Hdv.
  destruct (multiply_along_discovered sv dv (col_vec source_coordinate) Hsv Hdv)
    as (M & Hhd & Hlast & Hspec & Hcode).
  exists (found sv dv), M. split_and!; try done.
  - by apply discover_catalog.
  - unfold convert, convert_in. rewrite Hsrc, Hdest.
    by rewrite discover_catalog.
Qed.

(** C2: for registered source and destination names, the path [convert]
    discovers is a path of the catalog graph from the source to the
    destination and no path of the graph between the two has fewer edges;
    from Horizon to Ecliptic it is Horizon, Equatorial_HA_Dec,
    Equatorial_RA_Dec, Ecliptic, with 3 edges. *)
Theorem discovered_path_minimal src dest sv dv fuel :
  resolve src cat = Some sv → resolve dest cat = Some dv → graph_size ≤ fuel →
  (∃ path,
     discover fuel cat sv dv = Done path ∧
     (∀ v, convert_in fuel cat src dest v = multiply_along cat path v) ∧
     path_from_to cat sv dv path ∧
     ∀ q, path_from_to cat sv dv q → hops path ≤ hops q) ∧
  resolve "Horizon" cat = Some 0 ∧ resolve "Ecliptic" cat = Some 3 ∧
  discover fuel cat 0 3 = Done [0; 1; 2; 3] ∧ hops [0; 1; 2; 3] = 3 ∧
  (vertex_names cat !!.) <$> [0; 1; 2; 3] =
    Some <$> ["Horizon"; "Equatorial_HA_Dec"; "Equatorial_RA_Dec"; "Ecliptic"].
Proof.
  intros Hsrc Hdest Hfuel.
  pose proof (resolve_catalog_lt _ _ Hsrc) as Hsv.
  pose proof (resolve_catalog_lt _ _ Hdest) as Hdv.
  split_and!; try reflexivity.
  - exists (found sv dv). split_and!.
    + by apply discover_catalog.
    + intros v. unfold convert_in. rewrite Hsrc, Hdest.
      by rewrite discover_catalog.
    + by apply discovered_path.
    + intros q Hq. by apply discovered_shortest.
  - by apply (discover_catalog 0 3); unfold graph_size in *; try lia.
Qed.
End Catalog.

(** ** The arrays, the vector of the walk back and the exceptions of the
    three loops *)
Section WalkBack.
Context {matrix : Type} `{!Ublas matrix}.
Implicit Types (G : graph_t matrix) (st : bfs_state) (el : list (stored_edge matrix)).

Lemma array_get_Done {A : Type} (a : list A) i x :
  array_get a i = Done x ↔ a !! i = Some x.
Proof.
  unfold array_get. destruct (a !! i); (split; [by intros [= <-]|by intros [= <-]]) || done.
Qed.

Lemma array_put_Done {A : Type} (a : list A) i x a' :
  array_put a i x = Done a' ↔ i < length a ∧ a' = <[i:=x]> a.
Proof.
  unfold array_put. case_decide.
  - split; [by intros [= <-]|by intros [_ ->]].
  - split; [done|by intros []].
Qed.

Lemma bind_Done {A B : Type} (a : A) (f : A → exec B) : Done a ≫= f = f a.
Proof. reflexivity. Qed.

(** A [push_back] on a vector below its largest size appends. *)
Lemma push_back_Done (acc : list nat) x :
  (N.of_nat (length acc) < vector_max_size)%N → push_back acc x = Done (acc ++ [x]).
Proof. intros Hlen. unfold push_back. by rewrite decide_True. Qed.

Lemma push_back_BadAlloc (acc : list nat) x :
  (vector_max_size ≤ N.of_nat (length acc))%N → push_back acc x = BadAlloc.
Proof. intros Hlen. unfold push_back. rewrite decide_False; [done|lia]. Qed.

Lemma push_back_cases (acc : list nat) x :
  push_back acc x = Done (acc ++ [x]) ∨ push_back acc x = BadAlloc.
Proof. unfold push_back. case_decide; [by left|by right]. Qed.

Lemma store_path_loop_done n preds s acc :
  store_path_loop n preds s s acc = push_back acc s.
Proof. destruct n; simpl; by rewrite decide_True. Qed.

Lemma store_path_loop_step n preds s p p' acc :
  p ≠ s → preds !! p = Some p' →
  store_path_loop (S n) preds s p acc
  = (acc' ← push_back acc p; store_path_loop n preds s p' acc').
Proof.
  intros Hne Hp. simpl. rewrite decide_False by done.
  unfold array_get. rewrite Hp. by destruct (push_back acc p).
Qed.

Lemma discover_unfold n G s d :
  s < graph_size →
  discover n G s d =
  (st ← breadth_first_search n G s (<[s:=s]> (replicate graph_size 0));
   store_path ← store_path_loop n (predecessor st) s d [];
   mret (reverse store_path)).
Proof.
  intros Hs. unfold discover.
  assert (array_put (replicate graph_size 0) s s
          = Done (<[s:=s]> (replicate graph_size 0))) as ->; [|done].
  apply array_put_Done. by rewrite length_replicate.
Qed.

(** The walk back from vertex 0 when 0 is its own predecessor and is not the
    source: the loop pushes a 0 in every round, and ends when the vector
    cannot grow. *)
Lemma store_path_loop_stuck n preds s acc :
  s ≠ 0 → preds !! 0 = Some 0 →
  (N.of_nat (length acc) ≤ vector_max_size)%N →
  (vector_max_size < N.of_nat (length acc + n))%N →
  store_path_loop n preds s 0 acc = BadAlloc.
Proof.
  intros Hs H0. revert acc. induction n as [|n IH]; intros acc Hlen Hfuel.
  - lia.
  - rewrite (store_path_loop_step _ _ _ _ _ _ (not_eq_sym Hs) H0).
    destruct (decide (N.of_nat (length acc) < vector_max_size)%N) as [Hlt|Hge].
    + rewrite push_back_Done, bind_Done by done.
      apply IH; rewrite length_app; simpl; lia.
    + rewrite push_back_BadAlloc; [done|lia].
Qed.

(** No part of the search, the walk or the composition throws a
    [std::range_error]. *)
Lemma examine_out_edges_no_throw u el st what :
  examine_out_edges u el st ≠ Throw what.
Proof.
  revert st. induction el as [|e el IH]; intros st; simpl; [done|].
  unfold array_get, array_put.
  destruct (color st !! m_target e) as [[]|]; simpl; [|apply IH|apply IH|done].
  repeat case_decide; simpl; done.
Qed.

Lemma breadth_first_visit_no_throw fuel G st what :
  breadth_first_visit fuel G st ≠ Throw what.
Proof.
  revert st. induction fuel as [|fuel IH]; intros st; simpl.
  - by destruct (Q st).
  - destruct (Q st) as [|u Q']; [done|].
    destruct (array_get G u) as [sv|w| | |] eqn:Hg; simpl; try done.
    + destruct (examine_out_edges _ _ _) as [st1|w| | |] eqn:Hex; simpl; try done.
      * unfold array_put. case_decide; simpl; [apply IH|done].
      * by apply examine_out_edges_no_throw in Hex.
    + unfold array_get in Hg. by destruct (_ !! _).
Qed.

Lemma store_path_loop_no_throw n preds s p acc what :
  store_path_loop n preds s p acc ≠ Throw what.
Proof.
  revert p acc. induction n as [|n IH]; intros p acc; simpl.
  - case_decide; [|done]. by destruct (push_back_cases acc p) as [-> | ->].
  - case_decide; [by destruct (push_back_cases acc p) as [-> | ->]|].
    destruct (push_back_cases acc p) as [-> | ->]; [|done].
    rewrite bind_Done. unfold array_get.
    destruct (preds !! p); simpl; [apply IH|done].
Qed.

Lemma discover_no_throw n G s d what : discover n G s d ≠ Throw what.
Proof.
  unfold discover, breadth_first_search, array_put.
  repeat (case_decide; simpl; try done).
  destruct (breadth_first_visit _ _ _) as [st|w| | |] eqn:Hb; simpl; try done.
  - destruct (store_path_loop _ _ _ _ _) as [sp|w| | |] eqn:Hw; simpl; try done.
    by apply store_path_loop_no_throw in Hw.
  - by apply breadth_first_visit_no_throw in Hb.
Qed.

Lemma multiply_along_no_throw G rpath ans what :
  multiply_along G rpath ans ≠ Throw what.
Proof.
  revert ans. induction rpath as [|a rest IH]; intros ans; [done|].
  simpl. destruct rest as [|b rest']; [done|].
  unfold edge. destruct (G !! a) as [sv|]; [|done]. simpl.
  unfold edge_bundle. simpl. destruct (find_out_edge _ _); [|done].
  simpl. apply IH.
Qed.

End WalkBack.

(** ** Looking up an edge *)
Section EdgeLookup.
Context {matrix : Type} `{!Ublas matrix}.
Implicit Types (G : graph_t matrix) (el : list (stored_edge matrix)).

Lemma find_out_edge_None v el :
  find_out_edge v el = None ↔ v ∉ m_target <$> el.
Proof.
  induction el as [|e el IH]; simpl.
  - split; [intros _; apply not_elem_of_nil|done].
  - rewrite not_elem_of_cons. case_decide as Hv.
    + split; [done|]. by intros [].
    + rewrite IH. split; [done|by intros []].
Qed.

Lemma has_edge_lookup G u v :
  has_edge G u v ↔ ∃ sv, G !! u = Some sv ∧ v ∈ m_target <$> m_out_edges sv.
Proof.
  unfold has_edge, edges. rewrite list_elem_of_join. split.
  - intros (l & Huv & Hl). apply elem_of_lookup_imap in Hl as (i & sv & -> & Hsv).
    apply list_elem_of_fmap in Huv as (e & [= -> ->] & He).
    exists sv. split; [done|]. by apply list_elem_of_fmap_2.
  - intros (sv & Hsv & Hv). apply list_elem_of_fmap in Hv as (e & -> & He).
    eexists. split; [|by eapply elem_of_lookup_imap_2].
    simpl. by apply (list_elem_of_fmap_2 (λ e, (u, m_target e))).
Qed.

End EdgeLookup.

(** ** The catalog is a tree with every edge in both directions *)
Section CatalogTree.
Context {CoordinateType Angle matrix : Type}.
Context `{!Ublas matrix, !Utility CoordinateType Angle matrix}.
Variables phi st obliquity : Angle.

Local Abbreviation cat := (catalog phi st obliquity).
Local Abbreviation found := (discovered phi st obliquity).
Local Abbreviation lvl := (level phi st obliquity).

Lemma has_edge_catalog_lt a b :
  has_edge cat a b → a < graph_size ∧ b < graph_size.
Proof.
  unfold has_edge. rewrite edges_catalog. intros Hin.
  repeat (apply elem_of_cons in Hin as [Hin|Hin];
          [simplify_eq; unfold graph_size; lia|]).
  by apply elem_of_nil in Hin.
Qed.

Lemma path_end_lt s d q :
  s < graph_size → path_from_to cat s d q → d < graph_size.
Proof.
  revert s. induction q as [|x q IH]; intros s Hs (Hhd & Hlast & Hp); [done|].
  simpl in Hhd. simplify_eq. destruct q as [|b q].
  - simpl in Hlast. by simplify_eq.
  - rewrite consecutive_cons in Hp. apply Forall_cons in Hp as [Hsb Hp].
    rewrite last_cons_cons in Hlast.
    apply has_edge_catalog_lt in Hsb as [_ Hb]. by apply (IH b).
Qed.

(** Along an edge the distance to [d] changes by at most one, and where it
    drops the discovered path goes through that edge. *)
Lemma discovered_step s b d :
  has_edge cat s b → d < graph_size →
  lvl s d ≤ S (lvl b d) ∧ (lvl s d = S (lvl b d) → found s d = s :: found b d).
Proof.
  unfold has_edge. rewrite edges_catalog. intros Hin Hd. unfold graph_size in Hd.
  repeat (apply elem_of_cons in Hin as [Hin|Hin];
    [simplify_eq;
     do 5 (destruct d as [|d]; [compute_done|]); lia|]).
  by apply elem_of_nil in Hin.
Qed.

Lemma discovered_self s : s < graph_size → found s s = [s].
Proof.
  intros Hs. unfold graph_size in Hs.
  do 5 (destruct s as [|s]; [reflexivity|]). lia.
Qed.

(** A path with no more edges than the discovered one is the discovered one. *)
Lemma shortest_path_unique s d q :
  s < graph_size → path_from_to cat s d q → hops q ≤ lvl s d → q = found s d.
Proof.
  revert s. induction q as [|x q IH]; intros s Hs Hq Hle; [by destruct Hq|].
  pose proof (path_end_lt s d _ Hs Hq) as Hd.
  destruct Hq as (Hhd & Hlast & Hp). simpl in Hhd. simplify_eq.
  destruct q as [|b q].
  - simpl in Hlast. simplify_eq. by rewrite discovered_self.
  - rewrite consecutive_cons in Hp. apply Forall_cons in Hp as [Hsb Hp].
    rewrite last_cons_cons in Hlast. simpl in Hsb.
    destruct (discovered_step s b d Hsb Hd) as [Hstep Hthrough].
    destruct (has_edge_catalog_lt _ _ Hsb) as [_ Hb].
    assert (path_from_to cat b d (b :: q)) as Hbq by done.
    pose proof (discovered_shortest phi st obliquity b d _ Hb Hbq) as Hmin.
    unfold hops in Hle. rewrite consecutive_cons in Hle. simpl in Hle.
    fold (hops (b :: q)) in Hle. unfold level in *.
    rewrite Hthrough by lia. f_equal. apply IH; [done|done|]. unfold level. lia.
Qed.

(** One step of a walk along a path with no repeated vertex: the path ends,
    or its next vertex is a neighbour that was not visited. *)
Ltac walk_on :=
  match goal with
  | Hp : Forall _ (consecutive (?x :: ?q)),
    Hnd : NoDup (?x :: ?q),
    Hlast : last (?x :: ?q) = Some ?d |- _ =>
      destruct q as [|? ?];
      [ simpl in Hlast; simplify_eq; vm_compute; reflexivity
      | let He := fresh "He" in
        let Hni := fresh "Hni" in
        rewrite consecutive_cons in Hp; apply Forall_cons in Hp as [He Hp];
        rewrite last_cons_cons in Hlast;
        apply NoDup_cons in Hnd as [Hni Hnd];
        unfold has_edge in He; rewrite edges_catalog in He; simpl in He;
        repeat (apply elem_of_cons in He as [He|He]; [simplify_eq|]);
        try (by apply elem_of_nil in He);
        try (exfalso;
             match goal with
             | H : _ ∉ _ |- _ => apply H; solve [repeat constructor]
             end) ]
  end.

(** A path that visits no vertex twice is the discovered one. *)
Lemma simple_path_unique s d q :
  s < graph_size → path_from_to cat s d q → NoDup q → q = found s d.
Proof.
  intros Hs (Hhd & Hlast & Hp) Hnd. destruct q as [|x q]; [done|].
  simpl in Hhd. simplify_eq. unfold graph_size in Hs.
  do 5 (destruct s as [|s]; [repeat walk_on|]). lia.
Qed.

Lemma search_reaches_all s fuel :
  s < graph_size → graph_size ≤ fuel →
  ∃ final,
    breadth_first_search fuel cat s (<[s:=s]> (replicate graph_size 0)) = Done final ∧
    color final = replicate graph_size black_color.
Proof.
  intros Hs Hfuel. unfold graph_size in Hs.
  do 5 (destruct s as [|s];
    [eexists; split;
     [apply breadth_first_search_mono with graph_size; [vm_compute; reflexivity|done|done]
     |reflexivity]|]).
  lia.
Qed.

Lemma scan_vertices_names name (vs1 vs2 : list (stored_vertex matrix)) v :
  vertex_names vs1 = vertex_names vs2 →
  scan_vertices name vs1 v = scan_vertices name vs2 v.
Proof.
  revert vs2 v. induction vs1 as [|sv1 vs1 IH]; intros [|sv2 vs2] v Hn;
    try done; simpl in *.
  injection Hn as Hsv Hn. rewrite Hsv. case_decide; [done|]. by apply IH.
Qed.

Lemma same_up_to_order_names (G G' : graph_t matrix) :
  same_up_to_order G G' → vertex_names G' = vertex_names G.
Proof.
  induction 1 as [|sv sv' G G' [Hp _] _ IH]; [done|].
  unfold vertex_names in *. rewrite !fmap_cons. by rewrite Hp, IH.
Qed.

(** The graphs that differ from the catalog only in the order of the
    out-edges of each vertex give the same result. *)
Lemma convert_in_order_independent (G' : graph_t matrix) fuel src dest v :
  same_up_to_order cat G' → graph_size ≤ fuel →
  convert_in fuel G' src dest v = convert_in fuel cat src dest v.
Proof.
  intros HG' Hfuel. unfold convert_in, resolve.
  rewrite !(scan_vertices_names _ G' cat) by by apply same_up_to_order_names.
  fold (resolve src cat) (resolve dest cat).
  destruct (resolve src cat) as [sv|] eqn:Hsrc; [|done].
  destruct (resolve dest cat) as [dv|] eqn:Hdest; [|done].
  apply resolve_catalog_lt in Hsrc, Hdest. clear src dest.
  rewrite (discover_catalog phi st obliquity) by done.
  unfold same_up_to_order in HG'.
  remember cat as C eqn:HC. vm_compute in HC. subst C.
  repeat (apply Forall2_cons_inv_l in HG' as ([? ?] & ? & [? ?] & HG' & ->)).
  apply Forall2_nil_inv_l in HG' as ->. simpl in *. subst.
  repeat match goal with
  | H : _ ≡ₚ _ |- _ =>
      symmetry in H; apply permutations_Permutation in H; simpl in H;
      repeat (apply elem_of_cons in H as [->|H]); try by apply elem_of_nil in H
  end;
  unfold graph_size in Hsrc, Hdest;
  (do 5 (destruct sv as [|sv];
     [do 5 (destruct dv as [|dv];
        [match goal with
         | |- discover fuel ?G ?s ?d ≫= _ = _ =>
             let r := eval vm_compute in (discover graph_size G s d) in
             let H := fresh in
             assert (discover graph_size G s d = r) as H
               by (vm_compute; reflexivity);
             rewrite (discover_mono _ fuel _ _ _ _ H) by done;
             vm_compute; reflexivity
         end|]); lia|]); lia).
Qed.

(** Horizon to Equatorial_HA_Dec and back: each way is one multiplication,
    and both edges carry what [ha_dec_horizon] gave for [phi]. *)
Lemma round_trip_composition fuel v :
  graph_size ≤ fuel →
  convert_in fuel cat "Horizon" "Equatorial_HA_Dec" v
  = Done (prod (ha_dec_horizon phi) v) ∧
  convert_in fuel cat "Equatorial_HA_Dec" "Horizon" (prod (ha_dec_horizon phi) v)
  = Done (prod (ha_dec_horizon phi) (prod (ha_dec_horizon phi) v)).
Proof.
  intros Hfuel.
  split; (apply convert_in_mono with graph_size; [vm_compute; reflexivity|done|done]).
Qed.

(** C9: the catalog graph is strongly connected, the search from any vertex
    discovers every vertex, and so [convert] returns a result for every pair
    of registered names (the destination is never unreached); the undirected
    edges come in pairs of opposite directions, and the undirected skeleton
    is a tree: it is connected, has one edge less than there are vertices,
    and a path that visits no vertex twice is the discovered one; a path with
    no more edges than any other between its ends is the discovered one, and
    the result of the conversion is the same for every order in which the
    out-edges of the vertices are enumerated. *)
Theorem catalog_strongly_connected_tree :
  (∀ s d, s < graph_size → d < graph_size → ∃ p, path_from_to cat s d p) ∧
  (∀ s fuel, s < graph_size → graph_size ≤ fuel →
     ∃ final,
       breadth_first_search fuel cat s (<[s:=s]> (replicate graph_size 0))
       = Done final ∧
       color final = replicate graph_size black_color) ∧
  (∀ src dest fuel source_coordinate,
     src ∈ vertex_names cat → dest ∈ vertex_names cat → graph_size ≤ fuel →
     ∃ M, convert fuel src dest phi st obliquity source_coordinate = Done M) ∧
  (∀ u v, has_edge cat u v → has_edge cat v u) ∧
  (skeleton cat = [(0, 1); (1, 2); (2, 3); (2, 4)] ∧
   length (skeleton cat) = num_vertices cat - 1) ∧
  (∀ s d q fuel,
     s < graph_size → graph_size ≤ fuel → path_from_to cat s d q → NoDup q →
     discover fuel cat s d = Done q) ∧
  (∀ s d q fuel,
     s < graph_size → graph_size ≤ fuel → path_from_to cat s d q →
     (∀ q', path_from_to cat s d q' → hops q ≤ hops q') →
     discover fuel cat s d = Done q) ∧
  (∀ (G' : graph_t matrix) fuel src dest v,
     same_up_to_order cat G' → graph_size ≤ fuel →
     convert_in fuel G' src dest v = convert_in fuel cat src dest v).
Proof.
  split_and!.
  - intros s d Hs Hd. exists (found s d). by apply discovered_path.
  - apply search_reaches_all.
  - intros src dest fuel sc [sv Hsrc]%resolve_is_Some [dv Hdest]%resolve_is_Some Hfuel.
    destruct (multiply_along_discovered phi st obliquity sv dv (col_vec sc))
      as (M & _ & _ & _ & HM);
      [by eapply resolve_catalog_lt..|].
    exists M. unfold convert, convert_in. rewrite Hsrc, Hdest.
    pose proof (resolve_catalog_lt _ _ _ _ _ Hsrc) as Hsv.
    pose proof (resolve_catalog_lt _ _ _ _ _ Hdest) as Hdv.
    by rewrite (discover_catalog phi st obliquity) by done.
  - intros u v. unfold has_edge. rewrite edges_catalog. intros Hin.
    repeat (apply elem_of_cons in Hin as [Hin|Hin];
            [simplify_eq; compute_done|]).
    by apply elem_of_nil in Hin.
  - reflexivity.
  - reflexivity.
  - intros s d q fuel Hs Hfuel Hq Hnd.
    pose proof (path_end_lt s d q Hs Hq) as Hd.
    rewrite (discover_catalog phi st obliquity) by done. f_equal. symmetry.
    by apply simple_path_unique.
  - intros s d q fuel Hs Hfuel Hq Hmin.
    pose proof (path_end_lt s d q Hs Hq) as Hd.
    rewrite (discover_catalog phi st obliquity) by done. f_equal. symmetry.
    apply shortest_path_unique; [done|done|].
    apply Hmin. by apply discovered_path.
  - intros G' fuel src dest v. apply convert_in_order_independent.
Qed.
End CatalogTree.

(** ** Setters of [spherical_equatorial_representation] *)
Section SphericalEquatorialFacts.
Context {CoordinateType LatQuantity LonQuantity DistQuantity : Type}.
Variable lat_si_value : LatQuantity → CoordinateType.
Variable lat_from_si_value : CoordinateType → LatQuantity.
Variable lon_si_value : LonQuantity → CoordinateType.
Variable lon_from_si_value : CoordinateType → LonQuantity.
Variable dist_value : DistQuantity → CoordinateType.
Variable dist_from_value : CoordinateType → DistQuantity.

Local Abbreviation rep := (@spherical_equatorial_representation CoordinateType).

Lemma bg_get_set_eq K (p : @point_t CoordinateType) value :
  bg_get K (bg_set K p value) = value.
Proof. apply vlookup_insert. Qed.

Lemma bg_get_set_ne K K' (p : @point_t CoordinateType) value :
  K ≠ K' → bg_get K' (bg_set K p value) = bg_get K' p.
Proof. intros Hne. by apply vlookup_insert_ne. Qed.

(** C10: each setter writes its own component of the point and no other:
    after [set_lat] the components read by [get_lon] and [get_dist] (indices
    1 and 2) are what they were, and so are the values the two getters
    return; in the same way [set_lon] leaves latitude and distance, and
    [set_dist] leaves latitude and longitude.  The component written holds
    the value of the argument. *)
Theorem setters_change_own_component (this : rep)
    (lat : LatQuantity) (lon : LonQuantity) (distance : DistQuantity) :
  (bg_get 0%fin (point (set_lat lat_si_value lat this)) = lat_si_value lat ∧
   bg_get 1%fin (point (set_lat lat_si_value lat this)) = bg_get 1%fin (point this) ∧
   bg_get 2%fin (point (set_lat lat_si_value lat this)) = bg_get 2%fin (point this) ∧
   get_lon lon_from_si_value (set_lat lat_si_value lat this)
   = get_lon lon_from_si_value this ∧
   get_dist dist_from_value (set_lat lat_si_value lat this)
   = get_dist dist_from_value this) ∧
  (bg_get 1%fin (point (set_lon lon_si_value lon this)) = lon_si_value lon ∧
   bg_get 0%fin (point (set_lon lon_si_value lon this)) = bg_get 0%fin (point this) ∧
   bg_get 2%fin (point (set_lon lon_si_value lon this)) = bg_get 2%fin (point this) ∧
   get_lat lat_from_si_value (set_lon lon_si_value lon this)
   = get_lat lat_from_si_value this ∧
   get_dist dist_from_value (set_lon lon_si_value lon this)
   = get_dist dist_from_value this) ∧
  (bg_get 2%fin (point (set_dist dist_value distance this)) = dist_value distance ∧
   bg_get 0%fin (point (set_dist dist_value distance this)) = bg_get 0%fin (point this) ∧
   bg_get 1%fin (point (set_dist dist_value distance this)) = bg_get 1%fin (point this) ∧
   get_lat lat_from_si_value (set_dist dist_value distance this)
   = get_lat lat_from_si_value this ∧
   get_lon lon_from_si_value (set_dist dist_value distance this)
   = get_lon lon_from_si_value this).
Proof.
  unfold get_lat, get_lon, get_dist, set_lat, set_lon, set_dist. simpl.
  split_and!;
    first [ apply bg_get_set_eq
          | by rewrite bg_get_set_ne by done ].
Qed.
End SphericalEquatorialFacts.

(** ** Concrete runs

    Runs of [convert] over the symbolic collaborators, and of the same code
    on the catalog with a disconnected part. *)
Section Runs.
Import Symbolic.

Local Abbreviation cat := (catalog (matrix := term) 1 2 3).
Local Abbreviation sc := ({| get_point := (7, 8) |} : coord_sys nat).

Lemma convert_frame_not_found_witness :
  convert 0 "Lunar" "Horizon" 1 2 3 sc = Throw "Not found Lunar" ∧
  convert 0 "Lunar" "Solar" 1 2 3 sc = Throw "Not found Lunar" ∧
  convert 0 "Horizon" "Lunar" 1 2 3 sc = Throw "Not found Lunar".
Proof.
  split_and!.
  - apply (convert_frame_not_found 1 2 3 0 "Lunar" "Horizon" sc). compute_done.
  - apply (convert_frame_not_found 1 2 3 0 "Lunar" "Solar" sc). compute_done.
  - apply (convert_frame_not_found 1 2 3 0 "Horizon" "Lunar" sc); compute_done.
Defined.

Lemma convert_same_frame_witness :
  convert 5 "Galactic" "Galactic" 1 2 3 sc = Done (ColumnVector 7 8).
Proof.
  refine (proj2 (convert_same_frame 1 2 3 "Galactic" 5 sc _ _));
    [compute_done|unfold graph_size; lia].
Defined.

Lemma convert_composes_along_path_witness :
  ∃ path M,
    discover 5 cat 0 3 = Done path ∧
    head path = Some 0 ∧ last path = Some 3 ∧
    compose_along (registered_matrix 1 2 3) (consecutive path) (col_vec sc) = Some M ∧
    convert 5 "Horizon" "Ecliptic" 1 2 3 sc = Done M.
Proof.
  refine (proj1 (convert_composes_along_path 1 2 3 "Horizon" "Ecliptic" 0 3 5 sc
                   _ _ _));
    [reflexivity|reflexivity|unfold graph_size; lia].
Defined.

Lemma discovered_path_minimal_witness :
  ∃ path,
    discover 5 cat 4 0 = Done path ∧
    (∀ v, convert_in 5 cat "Galactic" "Horizon" v = multiply_along cat path v) ∧
    path_from_to cat 4 0 path ∧
    ∀ q, path_from_to cat 4 0 q → hops path ≤ hops q.
Proof.
  refine (proj1 (discovered_path_minimal 1 2 3 "Galactic" "Horizon" 4 0 5 _ _ _));
    [reflexivity|reflexivity|unfold graph_size; lia].
Defined.

(** From Horizon to Ecliptic: the three matrices of the path, the one of the
    first edge innermost. *)
Example convert_horizon_ecliptic :
  convert 5 "Horizon" "Ecliptic" 1 2 3 sc
  = Done (Prod (RaDecToEcliptic 3)
            (Prod (HaDecRaDec 2) (Prod (HaDecHorizon 1) (ColumnVector 7 8)))).
Proof. vm_compute. reflexivity. Qed.

(** The way back uses the matrices registered for the opposite directions. *)
Example convert_ecliptic_horizon :
  convert 5 "Ecliptic" "Horizon" 1 2 3 sc
  = Done (Prod (HaDecHorizon 1)
            (Prod (HaDecRaDec 2) (Prod (EclipticToRaDec 3) (ColumnVector 7 8)))).
Proof. vm_compute. reflexivity. Qed.

(** The same code on the catalog with a disconnected part, which [convert]
    does not build: Ecliptic is not reached from Equatorial_HA_Dec and keeps
    the initial predecessor 0, vertex 0 is its own predecessor and is not the
    source, so the walk back pushes until its vector cannot grow. *)
Lemma walk_from_unreached_vertex fuel :
  (vector_max_size < N.of_nat fuel)%N →
  convert_in fuel Disconnected.G "Equatorial_HA_Dec" "Ecliptic" (ColumnVector 0 0)
  = BadAlloc.
Proof.
  intros Hfuel.
  assert (2 ≤ fuel) as Hge by (unfold vector_max_size in Hfuel; lia).
  change (convert_in fuel Disconnected.G "Equatorial_HA_Dec" "Ecliptic"
            (ColumnVector 0 0))
    with (discover fuel Disconnected.G 1 3
          ≫= λ path, multiply_along Disconnected.G path (ColumnVector 0 0)).
  rewrite discover_unfold by (unfold graph_size; lia).
  rewrite (breadth_first_search_mono 2 fuel Disconnected.G 1 _
             (Done {| color := [white_color; black_color; black_color;
                                white_color; white_color];
                      predecessor := [0; 1; 1; 0; 0];
                      Q := [] |}));
    [|vm_compute; reflexivity|done|done].
  rewrite bind_Done. simpl predecessor.
  destruct fuel as [|fuel]; [lia|].
  rewrite (store_path_loop_step _ _ _ 3 0) by done.
  rewrite push_back_Done, bind_Done by (unfold vector_max_size; simpl; lia).
  rewrite store_path_loop_stuck; [done|done|done| |].
  - unfold vector_max_size. simpl. lia.
  - simpl. lia.
Qed.

Lemma catalog_strongly_connected_tree_witness :
  (∃ p, path_from_to cat 0 4 p) ∧
  (∃ M, convert 5 "Horizon" "Galactic" 1 2 3 sc = Done M) ∧
  convert_in 5 reversed_catalog "Horizon" "Galactic" (ColumnVector 7 8)
  = convert_in 5 cat "Horizon" "Galactic" (ColumnVector 7 8).
Proof.
  destruct (catalog_strongly_connected_tree (matrix := term) 1 2 3)
    as (Hconn & _ & Hdone & _ & _ & _ & _ & Horder).
  split_and!.
  - apply Hconn; unfold graph_size; lia.
  - apply Hdone; [compute_done|compute_done|unfold graph_size; lia].
  - apply Horder; [|unfold graph_size; lia].
    apply Forall2_fmap_r, Forall_Forall2_diag, Forall_forall.
    intros sv _. split; [reflexivity|]. apply reverse_Permutation.
Defined.
End Runs.

(** ** Construction, setters and getters of the representation together *)
Section SphericalEquatorialRoundTrips.
Context {CoordinateType LatQuantity LonQuantity DistQuantity : Type}.
Variable lat_si_value : LatQuantity → CoordinateType.
Variable lat_from_si_value : CoordinateType → LatQuantity.
Variable lon_si_value : LonQuantity → CoordinateType.
Variable lon_from_si_value : CoordinateType → LonQuantity.
Variable dist_value : DistQuantity → CoordinateType.
Variable dist_from_value : CoordinateType → DistQuantity.

Local Abbreviation rep := (@spherical_equatorial_representation CoordinateType).

Lemma rep_eq (r r' : rep) :
  (∀ K, bg_get K (point r) = bg_get K (point r')) → r = r'.
Proof. destruct r as [p], r' as [p']. simpl. intros HK. f_equal. by apply vec_eq. Qed.

(** X11: [set_lat_lon_dist] writes all three components: the object it yields
    holds the three converted arguments and nothing of the object it was
    called on, so the three-argument constructor gives the same object
    whatever the default construction left in the point. *)
Theorem set_lat_lon_dist_overwrites (this this' : rep)
    (lat : LatQuantity) (lon : LonQuantity) (distance : DistQuantity)
    (uninitialized uninitialized' : point_t) :
  point (set_lat_lon_dist lat_si_value lon_si_value dist_value lat lon distance this)
  = [# lat_si_value lat; lon_si_value lon; dist_value distance] ∧
  set_lat_lon_dist lat_si_value lon_si_value dist_value lat lon distance this
  = set_lat_lon_dist lat_si_value lon_si_value dist_value lat lon distance this' ∧
  construct lat_si_value lon_si_value dist_value uninitialized lat lon distance
  = construct lat_si_value lon_si_value dist_value uninitialized' lat lon distance.
Proof.
  assert (∀ r : rep,
    point (set_lat_lon_dist lat_si_value lon_si_value dist_value lat lon distance r)
    = [# lat_si_value lat; lon_si_value lon; dist_value distance]) as Hall.
  { intros [p]. inv_vec p. intros x y z. reflexivity. }
  split_and!; [apply Hall| |unfold construct];
    apply rep_eq; intros K; by rewrite !Hall.
Qed.

(** X12: the three setters can be called in any order, and of two calls of the
    same setter the later one decides. *)
Theorem setters_commute (this : rep)
    (lat lat' : LatQuantity) (lon lon' : LonQuantity)
    (distance distance' : DistQuantity) :
  set_lat lat_si_value lat (set_lon lon_si_value lon this)
  = set_lon lon_si_value lon (set_lat lat_si_value lat this) ∧
  set_lat lat_si_value lat (set_dist dist_value distance this)
  = set_dist dist_value distance (set_lat lat_si_value lat this) ∧
  set_lon lon_si_value lon (set_dist dist_value distance this)
  = set_dist dist_value distance (set_lon lon_si_value lon this) ∧
  set_lat lat_si_value lat (set_lat lat_si_value lat' this)
  = set_lat lat_si_value lat this ∧
  set_lon lon_si_value lon (set_lon lon_si_value lon' this)
  = set_lon lon_si_value lon this ∧
  set_dist dist_value distance (set_dist dist_value distance' this)
  = set_dist dist_value distance this.
Proof.
  destruct this as [p]. inv_vec p. intros x y z. by split_and!.
Qed.

(** X13: where converting a quantity to its SI value and back gives the
    quantity again, the getters return what the constructor (or [set_lat_lon_dist])
    was given. *)
Theorem getters_after_construct (uninitialized : point_t)
    (lat : LatQuantity) (lon : LonQuantity) (distance : DistQuantity) :
  lat_from_si_value (lat_si_value lat) = lat →
  lon_from_si_value (lon_si_value lon) = lon →
  dist_from_value (dist_value distance) = distance →
  get_lat_lon_dist lat_from_si_value lon_from_si_value dist_from_value
    (make_spherical_equatorial_representation lat_si_value lon_si_value dist_value
       uninitialized lat lon distance)
  = (lat, lon, distance).
Proof.
  intros Hlat Hlon Hdist.
  unfold make_spherical_equatorial_representation, construct.
  inv_vec uninitialized. intros x y z.
  unfold get_lat_lon_dist, get_lat, get_lon, get_dist. simpl.
  unfold bg_get. simpl. by rewrite Hlat, Hlon, Hdist.
Qed.

End SphericalEquatorialRoundTrips.

Section SphericalEquatorialConversion.
Context {CoordinateType LatQuantity LonQuantity DistQuantity : Type}.
Context {ReturnLatQuantity ReturnLonQuantity ReturnDistQuantity : Type}.
Variable lat_from_si_value : CoordinateType → LatQuantity.
Variable lon_from_si_value : CoordinateType → LonQuantity.
Variable dist_from_value : CoordinateType → DistQuantity.
Variable return_lat_si_value : ReturnLatQuantity → CoordinateType.
Variable return_lon_si_value : ReturnLonQuantity → CoordinateType.
Variable return_dist_value : ReturnDistQuantity → CoordinateType.
Variable cast_lat : LatQuantity → ReturnLatQuantity.
Variable cast_lon : LonQuantity → ReturnLonQuantity.
Variable cast_dist : DistQuantity → ReturnDistQuantity.

(** X14: the conversion of a representation to other quantity types over the same
    coordinate type keeps the point, where each stored component survives
    the way it takes: from the SI value to the quantity of the source, cast
    to the quantity asked for, and back to the SI value. *)
Theorem make_as_keeps_point (uninitialized : point_t)
    (other : @spherical_equatorial_representation CoordinateType) :
  return_lat_si_value (cast_lat (lat_from_si_value (bg_get 0%fin (point other))))
  = bg_get 0%fin (point other) →
  return_lon_si_value (cast_lon (lon_from_si_value (bg_get 1%fin (point other))))
  = bg_get 1%fin (point other) →
  return_dist_value (cast_dist (dist_from_value (bg_get 2%fin (point other))))
  = bg_get 2%fin (point other) →
  make_spherical_equatorial_representation_as
    lat_from_si_value lon_from_si_value dist_from_value
    return_lat_si_value return_lon_si_value return_dist_value
    cast_lat cast_lon cast_dist uninitialized other
  = other.
Proof.
  unfold make_spherical_equatorial_representation_as, get_lat, get_lon, get_dist.
  destruct other as [p]. inv_vec p. intros x y z.
  inv_vec uninitialized. intros x' y' z'. simpl. unfold bg_get. simpl.
  intros Hlat Hlon Hdist. unfold set_lat_lon_dist, set_dist, set_lon, set_lat.
  simpl. unfold bg_set. simpl. by rewrite Hlat, Hlon, Hdist.
Qed.
End SphericalEquatorialConversion.

(** ** Counting colours *)
Section Counting.
Context {A : Type} (f : A → nat).

Lemma sum_list_with_insert (l : list A) i x y :
  l !! i = Some x →
  sum_list_with f (<[i:=y]> l) + f x = sum_list_with f l + f y.
Proof.
  revert i. induction l as [|a l IH]; intros [|i] Hi; simplify_eq/=; [lia|].
  specialize (IH i Hi). lia.
Qed.

Lemma sum_list_with_lookup (l : list A) i x :
  l !! i = Some x → f x ≤ sum_list_with f l.
Proof.
  revert i. induction l as [|a l IH]; intros [|i] Hi; simplify_eq/=; [lia|].
  specialize (IH i Hi). lia.
Qed.

Lemma sum_list_with_replicate n x :
  sum_list_with f (replicate n x) = n * f x.
Proof. induction n as [|n IH]; simpl; [done|]. rewrite IH. lia. Qed.

Lemma sum_list_with_le_length (l : list A) :
  (∀ x, f x ≤ 1) → sum_list_with f l ≤ length l.
Proof.
  intros Hf. induction l as [|a l IH]; simpl; [done|].
  specialize (Hf a). lia.
Qed.
End Counting.

(** ** The breadth-first search on any graph *)
Section BreadthFirst.
Context {matrix : Type} `{!Ublas matrix}.
Implicit Types (G : graph_t matrix) (colors : list default_color_type)
  (preds : list nat) (rank : vertex_t → nat) (st : bfs_state)
  (el : list (stored_edge matrix)).

Lemma set_rank_eq rank v k : set_rank rank v k v = k.
Proof. unfold set_rank. by rewrite decide_True. Qed.

Lemma set_rank_ne rank v k w : w ≠ v → set_rank rank v k w = rank w.
Proof. intros Hne. unfold set_rank. by rewrite decide_False. Qed.

Lemma nonwhite_insert colors v c w :
  c ≠ white_color → v < length colors →
  nonwhite (<[v:=c]> colors) w ↔ w = v ∨ nonwhite colors w.
Proof.
  intros Hc Hv. unfold nonwhite. destruct (decide (w = v)) as [->|Hne].
  - rewrite list_lookup_insert_eq by done. split; [by left|]. intros _. by exists c.
  - rewrite list_lookup_insert_ne by done. split; [by right|]. by intros [|].
Qed.

Lemma white_not_nonwhite colors v :
  colors !! v = Some white_color → ¬ nonwhite colors v.
Proof. intros Hw (c & Hc & Hne). congruence. Qed.

Lemma gray_nonwhite colors v : colors !! v = Some gray_color → nonwhite colors v.
Proof. intros Hv. by exists gray_color. Qed.

Lemma black_nonwhite colors v : colors !! v = Some black_color → nonwhite colors v.
Proof. intros Hv. by exists black_color. Qed.

Lemma count_nonwhite_discover colors v :
  colors !! v = Some white_color →
  count_nonwhite (<[v:=gray_color]> colors) = S (count_nonwhite colors).
Proof.
  intros Hv. unfold count_nonwhite.
  pose proof (sum_list_with_insert
    (λ c, if decide (c = white_color) then 0 else 1) colors v _ gray_color Hv) as H.
  simpl in H. lia.
Qed.

Lemma count_nonwhite_finish colors u :
  colors !! u = Some gray_color →
  count_nonwhite (<[u:=black_color]> colors) = count_nonwhite colors.
Proof.
  intros Hu. unfold count_nonwhite.
  pose proof (sum_list_with_insert
    (λ c, if decide (c = white_color) then 0 else 1) colors u _ black_color Hu) as H.
  simpl in H. lia.
Qed.

Lemma count_nonblack_discover colors v :
  colors !! v = Some white_color →
  count_nonblack (<[v:=gray_color]> colors) = count_nonblack colors.
Proof.
  intros Hv. unfold count_nonblack.
  pose proof (sum_list_with_insert
    (λ c, if decide (c = black_color) then 0 else 1) colors v _ gray_color Hv) as H.
  simpl in H. lia.
Qed.

Lemma count_nonblack_finish colors u :
  colors !! u = Some gray_color →
  S (count_nonblack (<[u:=black_color]> colors)) = count_nonblack colors.
Proof.
  intros Hu. unfold count_nonblack.
  pose proof (sum_list_with_insert
    (λ c, if decide (c = black_color) then 0 else 1) colors u _ black_color Hu) as H.
  simpl in H. lia.
Qed.

Lemma count_nonblack_gray colors u :
  colors !! u = Some gray_color → 0 < count_nonblack colors.
Proof.
  intros Hu. unfold count_nonblack.
  pose proof (sum_list_with_lookup
    (λ c, if decide (c = black_color) then 0 else 1) colors u _ Hu) as H.
  simpl in H. lia.
Qed.

Lemma count_nonwhite_le colors : count_nonwhite colors ≤ length colors.
Proof. apply sum_list_with_le_length. intros c. case_decide; lia. Qed.

(** A white target of an out-edge of the vertex in front is discovered. *)
Lemma discover_step G s rank u Q0 colors preds v :
  search_tree G s rank (u :: Q0) colors preds →
  has_edge G u v → colors !! v = Some white_color →
  search_tree G s (set_rank rank v (S (rank u))) (u :: Q0 ++ [v])
    (<[v:=gray_color]> colors) (<[v:=u]> preds).
Proof.
  intros [Hwf Hsize Hcol Hpre Hgray Hnd Hsrc Hpar Hbnd Hcl Hsort Hfront] Huv Hv.
  assert (v < length colors) as Hvlt by by eapply lookup_lt_Some.
  assert (colors !! u = Some gray_color) as Hu by (apply Hgray; left).
  assert (∀ w, nonwhite colors w → w ≠ v) as Hnw.
  { intros w Hw ->. by eapply white_not_nonwhite. }
  assert (∀ w, nonwhite colors w → set_rank rank v (S (rank u)) w = rank w) as Hrank.
  { intros w Hw. apply set_rank_ne. intros ->. by eapply Hnw. }
  assert (nonwhite colors u) as Hunw by by apply gray_nonwhite.
  assert (v ∉ u :: Q0) as Hvin.
  { intros Hin%Hgray. congruence. }
  destruct Hsrc as (Hs & Hps & Hrs).
  assert (s ≠ v) as Hsv by by apply Hnw.
  split; try done.
  - by rewrite length_insert.
  - by rewrite length_insert.
  - intros w. destruct (decide (w = v)) as [->|Hne].
    + rewrite list_lookup_insert_eq by done. split; [intros _|done].
      rewrite app_comm_cons. apply elem_of_app. right. by left.
    + rewrite list_lookup_insert_ne by done. rewrite Hgray.
      rewrite app_comm_cons, elem_of_app, list_elem_of_singleton. tauto.
  - rewrite app_comm_cons. apply NoDup_app. split_and!; [done| |apply NoDup_singleton].
    intros w Hw. rewrite list_elem_of_singleton. intros ->. done.
  - split_and!.
    + apply nonwhite_insert; [done|done|by right].
    + by rewrite list_lookup_insert_ne.
    + by rewrite Hrank.
  - intros w Hw Hws. apply nonwhite_insert in Hw as [->|Hw]; [| |done|done].
    + exists u. split_and!.
      * apply list_lookup_insert_eq. lia.
      * done.
      * apply nonwhite_insert; [done|done|by right].
      * rewrite set_rank_eq. by rewrite Hrank.
    + destruct (Hpar w Hw Hws) as (u0 & Hp0 & He0 & Hn0 & Hr0).
      exists u0. split_and!.
      * rewrite list_lookup_insert_ne; [done|]. intros ->. by apply (Hnw w).
      * done.
      * apply nonwhite_insert; [done|done|by right].
      * by rewrite !Hrank.
  - intros w Hw. rewrite count_nonwhite_discover by done.
    apply nonwhite_insert in Hw as [->|Hw]; [| |done|done].
    + rewrite set_rank_eq. specialize (Hbnd u Hunw). lia.
    + rewrite Hrank by done. specialize (Hbnd w Hw). lia.
  - intros u0 w Hu0 Huw.
    assert (u0 ≠ v) as Hne.
    { intros ->. rewrite list_lookup_insert_eq in Hu0 by done. done. }
    rewrite list_lookup_insert_ne in Hu0 by done.
    destruct (Hcl u0 w Hu0 Huw) as [Hw Hr]. split.
    + apply nonwhite_insert; [done|done|by right].
    + rewrite !Hrank; [done|by apply black_nonwhite|done].
  - intros i j a b Ha Hb Hij.
    rewrite app_comm_cons in Ha, Hb.
    apply lookup_snoc_Some in Hb as [[Hjlt Hb]|[Hj ->]].
    + apply lookup_snoc_Some in Ha as [[Hilt Ha]|[Hi ->]]; [|lia].
      assert (nonwhite colors a) as Hna.
      { apply gray_nonwhite, Hgray. by eapply list_elem_of_lookup_2. }
      assert (nonwhite colors b) as Hnb.
      { apply gray_nonwhite, Hgray. by eapply list_elem_of_lookup_2. }
      rewrite !Hrank by done. by eapply Hsort.
    + rewrite set_rank_eq.
      apply lookup_snoc_Some in Ha as [[Hilt Ha]|[Hi ->]].
      * assert (nonwhite colors a) as Hna.
        { apply gray_nonwhite, Hgray. by eapply list_elem_of_lookup_2. }
        rewrite Hrank by done. by apply (Hfront u).
      * by rewrite set_rank_eq.
  - intros a w Ha Hw. simpl in Ha. simplify_eq.
    rewrite (Hrank a) by done.
    apply nonwhite_insert in Hw as [->|Hw]; [| |done|done].
    + by rewrite set_rank_eq.
    + rewrite Hrank by done. by apply (Hfront a).
Qed.

(** The vertex in front has had all its out-edges examined and turns black. *)
Lemma finish_step G s rank u Q0 colors preds :
  search_tree G s rank (u :: Q0) colors preds →
  (∀ v, has_edge G u v → nonwhite colors v) →
  search_tree G s rank Q0 (<[u:=black_color]> colors) preds.
Proof.
  intros [Hwf Hsize Hcol Hpre Hgray Hnd Hsrc Hpar Hbnd Hcl Hsort Hfront] Hout.
  assert (colors !! u = Some gray_color) as Hu by (apply Hgray; left).
  assert (u < length colors) as Hult by by eapply lookup_lt_Some.
  assert (nonwhite colors u) as Hunw by by apply gray_nonwhite.
  assert (∀ w, nonwhite (<[u:=black_color]> colors) w ↔ nonwhite colors w) as Hnw.
  { intros w. rewrite nonwhite_insert by done. split; [|by right].
    by intros [->|]. }
  apply NoDup_cons in Hnd as [HuQ Hnd].
  split; try done.
  - by rewrite length_insert.
  - intros w. destruct (decide (w = u)) as [->|Hne].
    + rewrite list_lookup_insert_eq by done. split; [done|]. by intros ?.
    + rewrite list_lookup_insert_ne by done. rewrite Hgray, elem_of_cons. tauto.
  - destruct Hsrc as (Hs & Hps & Hrs). split_and!; [by apply Hnw|done|done].
  - intros w Hw%Hnw Hws. destruct (Hpar w Hw Hws) as (u0 & Hp0 & He0 & Hn0 & Hr0).
    exists u0. split_and!; [done|done|by apply Hnw|done].
  - intros w Hw%Hnw. rewrite count_nonwhite_finish by done. by apply Hbnd.
  - intros u0 w Hu0 Huw. rewrite Hnw. destruct (decide (u0 = u)) as [->|Hne].
    + split; [by apply Hout|]. apply (Hfront u); [done|]. by apply Hout.
    + rewrite list_lookup_insert_ne in Hu0 by done. by apply Hcl.
  - intros i j a b Ha Hb Hij. apply (Hsort (S i) (S j)); [done|done|lia].
  - intros a w Ha Hw%Hnw.
    assert (rank u ≤ rank a) as Hua.
    { apply (Hsort 0 1); [done| |lia]. simpl. by rewrite <- head_lookup. }
    pose proof (Hfront u w eq_refl Hw). lia.
Qed.

Lemma examine_out_edges_cons u e el st :
  examine_out_edges u (e :: el) st =
  (v_color ← array_get (color st) (m_target e);
   match v_color with
   | white_color =>
       preds ← array_put (predecessor st) (m_target e) u;
       colors ← array_put (color st) (m_target e) gray_color;
       examine_out_edges u el
         {| color := colors; predecessor := preds; Q := Q st ++ [m_target e] |}
   | _ => examine_out_edges u el st
   end).
Proof. reflexivity. Qed.

Lemma has_edge_lt G u v : graph_wf G → has_edge G u v → v < num_vertices G.
Proof.
  unfold graph_wf, has_edge. rewrite Forall_forall. intros Hwf Huv.
  by apply (Hwf (u, v)).
Qed.

(** The loop over the out-edges of the vertex in front. *)
Lemma examine_out_edges_tree G s u el st rank :
  search_tree G s rank (u :: Q st) (color st) (predecessor st) →
  (∀ e, e ∈ el → has_edge G u (m_target e)) →
  ∃ st' rank',
    examine_out_edges u el st = Done st' ∧
    search_tree G s rank' (u :: Q st') (color st') (predecessor st') ∧
    count_nonblack (color st') = count_nonblack (color st) ∧
    (∀ w, nonwhite (color st) w → nonwhite (color st') w) ∧
    (∀ e, e ∈ el → nonwhite (color st') (m_target e)).
Proof.
  revert st rank. induction el as [|e el IH]; intros st rank Htree Hel.
  - exists st, rank. split_and!; try done. by intros e Hin%elem_of_nil.
  - assert (has_edge G u (m_target e)) as Hue by (apply Hel; left).
    assert (m_target e < num_vertices G) as Hlt.
    { eapply has_edge_lt; [by destruct Htree|done]. }
    assert (∀ e', e' ∈ el → has_edge G u (m_target e')) as Hel'.
    { intros e' He'. apply Hel. by right. }
    destruct (color st !! m_target e) as [c|] eqn:Hc.
    2: { apply lookup_ge_None in Hc. destruct Htree. lia. }
    rewrite examine_out_edges_cons.
    rewrite (proj2 (array_get_Done _ _ _) Hc), bind_Done.
    destruct (decide (c = white_color)) as [->|Hnw].
    + assert (array_put (predecessor st) (m_target e) u
              = Done (<[m_target e:=u]> (predecessor st))) as ->.
      { apply array_put_Done. split; [|done]. destruct Htree. lia. }
      assert (array_put (color st) (m_target e) gray_color
              = Done (<[m_target e:=gray_color]> (color st))) as ->.
      { apply array_put_Done. split; [|done]. by eapply lookup_lt_Some. }
      rewrite !bind_Done.
      pose proof (discover_step _ _ _ _ _ _ _ _ Htree Hue Hc) as Htree1.
      destruct (IH {| color := <[m_target e:=gray_color]> (color st);
                      predecessor := <[m_target e:=u]> (predecessor st);
                      Q := Q st ++ [m_target e] |} _ Htree1 Hel')
        as (st' & rank' & Hrun & Htree' & Hcount & Hmono & Hall).
      exists st', rank'. simpl in *. split_and!; try done.
      * by rewrite Hcount, count_nonblack_discover.
      * intros w Hw. apply Hmono, nonwhite_insert; [done| |by right].
        by eapply lookup_lt_Some.
      * intros e' [->|He']%elem_of_cons; [|by apply Hall].
        apply Hmono, nonwhite_insert; [done| |by left].
        by eapply lookup_lt_Some.
    + destruct (IH st rank Htree Hel')
        as (st' & rank' & Hrun & Htree' & Hcount & Hmono & Hall).
      exists st', rank'. split_and!; try done.
      * by destruct c.
      * intros e' [->|He']%elem_of_cons; [|by apply Hall].
        apply Hmono. by exists c.
Qed.

Lemma breadth_first_visit_nil fuel G st :
  Q st = [] → breadth_first_visit fuel G st = Done st.
Proof. intros HQ. destruct fuel; simpl; by rewrite HQ. Qed.

Lemma breadth_first_visit_cons fuel G st u Q' :
  Q st = u :: Q' →
  breadth_first_visit (S fuel) G st =
  (sv ← array_get G u;
   st' ← examine_out_edges u (m_out_edges sv)
           {| color := color st; predecessor := predecessor st; Q := Q' |};
   colors ← array_put (color st') u black_color;
   breadth_first_visit fuel G
     {| color := colors; predecessor := predecessor st'; Q := Q st' |}).
Proof. intros HQ. simpl. by rewrite HQ. Qed.

(** The loop over the queue ends, with the queue empty, before the budget
    does when the budget is the number of vertices that are not black. *)
Lemma breadth_first_visit_tree G s fuel st rank :
  search_tree G s rank (Q st) (color st) (predecessor st) →
  count_nonblack (color st) ≤ fuel →
  ∃ st' rank',
    breadth_first_visit fuel G st = Done st' ∧ Q st' = [] ∧
    search_tree G s rank' [] (color st') (predecessor st').
Proof.
  revert st rank. induction fuel as [|fuel IH]; intros st rank Htree Hfuel.
  - destruct (Q st) as [|u Q'] eqn:HQ.
    + exists st, rank. by rewrite breadth_first_visit_nil.
    + assert (color st !! u = Some gray_color) as Hu.
      { apply (tree_gray _ _ _ _ _ _ Htree). left. }
      apply count_nonblack_gray in Hu. lia.
  - destruct (Q st) as [|u Q'] eqn:HQ.
    + exists st, rank. by rewrite breadth_first_visit_nil.
    + assert (color st !! u = Some gray_color) as Hu.
      { apply (tree_gray _ _ _ _ _ _ Htree). left. }
      assert (u < num_vertices G) as Hult.
      { apply lookup_lt_Some in Hu. by rewrite (tree_colors _ _ _ _ _ _ Htree) in Hu. }
      destruct (lookup_lt_is_Some_2 G u Hult) as [sv Hsv].
      rewrite (breadth_first_visit_cons _ _ _ _ _ HQ).
      rewrite (proj2 (array_get_Done _ _ _) Hsv), bind_Done.
      assert (∀ e, e ∈ m_out_edges sv → has_edge G u (m_target e)) as Hout.
      { intros e He. apply has_edge_lookup. exists sv. split; [done|].
        by apply list_elem_of_fmap_2. }
      destruct (examine_out_edges_tree G s u (m_out_edges sv)
                  {| color := color st; predecessor := predecessor st; Q := Q' |}
                  rank Htree Hout)
        as (st1 & rank1 & Hrun & Htree1 & Hcount & Hmono & Hall).
      rewrite Hrun, bind_Done. simpl in Hcount.
      assert (color st1 !! u = Some gray_color) as Hu1.
      { apply (tree_gray _ _ _ _ _ _ Htree1). left. }
      assert (array_put (color st1) u black_color
              = Done (<[u:=black_color]> (color st1))) as ->.
      { apply array_put_Done. split; [|done]. by eapply lookup_lt_Some. }
      rewrite bind_Done.
      assert (∀ v, has_edge G u v → nonwhite (color st1) v) as Hnb.
      { intros v (sv' & Hsv' & Hv)%has_edge_lookup.
        assert (Some sv' = Some sv) as [= ->] by exact (eq_trans (eq_sym Hsv') Hsv).
        apply list_elem_of_fmap in Hv as (e & -> & He). by apply Hall. }
      pose proof (finish_step _ _ _ _ _ _ _ Htree1 Hnb) as Htree2.
      apply (IH {| color := <[u:=black_color]> (color st1);
                   predecessor := predecessor st1; Q := Q st1 |} rank1 Htree2).
      simpl. pose proof (count_nonblack_finish _ _ Hu1). lia.
Qed.

Lemma search_tree_init G s :
  graph_wf G → num_vertices G ≤ graph_size → s < num_vertices G →
  search_tree G s (λ _, 0) [s]
    (<[s:=gray_color]> (replicate (num_vertices G) white_color))
    (<[s:=s]> (replicate graph_size 0)).
Proof.
  intros Hwf Hsize Hs.
  assert (replicate (num_vertices G) white_color !! s = Some white_color) as Hws.
  { by apply lookup_replicate_2. }
  assert (∀ w, nonwhite (<[s:=gray_color]> (replicate (num_vertices G) white_color)) w
               → w = s) as Hnw.
  { intros w [->|(c & Hc & Hne)]%nonwhite_insert; [done| |done|].
    - by apply lookup_replicate in Hc as [-> _].
    - by rewrite length_replicate. }
  split; try done.
  - by rewrite length_insert, length_replicate.
  - by rewrite length_insert, length_replicate.
  - intros w. rewrite list_elem_of_singleton. destruct (decide (w = s)) as [->|Hne].
    + rewrite list_lookup_insert_eq; [done|]. by rewrite length_replicate.
    + rewrite list_lookup_insert_ne by done. split; [|done].
      by intros [? _]%lookup_replicate.
  - apply NoDup_singleton.
  - split_and!; [|apply list_lookup_insert_eq; rewrite length_replicate; lia|done].
    apply nonwhite_insert; [done|by rewrite length_replicate|by left].
  - intros w Hw%Hnw. done.
  - intros w _. rewrite count_nonwhite_discover by done.
    lia.
  - intros u v Hu. exfalso. destruct (decide (u = s)) as [->|Hne].
    + rewrite list_lookup_insert_eq in Hu; [done|]. by rewrite length_replicate.
    + rewrite list_lookup_insert_ne in Hu by done.
      by apply lookup_replicate in Hu as [? _].
  - intros a v _ _. lia.
Qed.

(** The search ends within as many dequeues as the graph has vertices. *)
Lemma breadth_first_search_tree G s fuel :
  graph_wf G → num_vertices G ≤ graph_size → s < num_vertices G →
  num_vertices G ≤ fuel →
  ∃ st rank,
    breadth_first_search fuel G s (<[s:=s]> (replicate graph_size 0)) = Done st ∧
    Q st = [] ∧ search_tree G s rank [] (color st) (predecessor st).
Proof.
  intros Hwf Hsize Hs Hfuel. unfold breadth_first_search.
  assert (array_put (replicate (num_vertices G) white_color) s gray_color
          = Done (<[s:=gray_color]> (replicate (num_vertices G) white_color))) as ->.
  { apply array_put_Done. by rewrite length_replicate. }
  rewrite bind_Done.
  apply (breadth_first_visit_tree G s fuel
           {| color := <[s:=gray_color]> (replicate (num_vertices G) white_color);
              predecessor := <[s:=s]> (replicate graph_size 0);
              Q := [s] |} (λ _, 0)).
  - by apply search_tree_init.
  - simpl. unfold count_nonblack.
    pose proof (sum_list_with_insert
      (λ c, if decide (c = black_color) then 0 else 1)
      (replicate (num_vertices G) white_color) s white_color gray_color) as H.
    rewrite sum_list_with_replicate in H. simpl in H.
    specialize (H (lookup_replicate_2 _ _ _ Hs)). lia.
Qed.

Lemma hops_cons a b p : hops (a :: b :: p) = S (hops (b :: p)).
Proof. reflexivity. Qed.

Lemma consecutive_snoc (p : list vertex_t) u v :
  last p = Some u → consecutive (p ++ [v]) = consecutive p ++ [(u, v)].
Proof.
  induction p as [|a p IH]; [done|]. destruct p as [|b p].
  - by intros [= ->].
  - rewrite last_cons_cons. intros Hlast.
    change (consecutive (a :: (b :: p) ++ [v])
            = (a, b) :: consecutive (b :: p) ++ [(u, v)]).
    rewrite <- (IH Hlast). reflexivity.
Qed.

Lemma hops_snoc (p : list vertex_t) u v :
  last p = Some u → hops (p ++ [v]) = S (hops p).
Proof.
  intros Hlast. unfold hops. rewrite (consecutive_snoc p u v Hlast).
  rewrite length_app. simpl. lia.
Qed.

Lemma path_from_to_refl G s : path_from_to G s s [s].
Proof. split_and!; [done|done|]. by apply Forall_nil. Qed.

(** A path goes on along an edge out of its end. *)
Lemma path_from_to_snoc G s u v p :
  path_from_to G s u p → has_edge G u v → path_from_to G s v (p ++ [v]).
Proof.
  intros (Hhd & Hlast & Hp) Huv. split_and!.
  - rewrite head_app. by rewrite Hhd.
  - apply last_snoc.
  - rewrite (consecutive_snoc p u v Hlast). apply Forall_app. split; [done|].
    by apply Forall_singleton.
Qed.

(** A discovered vertex is less deep than the graph has vertices. *)
Lemma search_tree_rank_lt G s rank A colors preds v :
  search_tree G s rank A colors preds → nonwhite colors v → rank v < graph_size.
Proof.
  intros Htree Hv.
  pose proof (tree_bound _ _ _ _ _ _ Htree v Hv).
  pose proof (count_nonwhite_le colors).
  pose proof (tree_size _ _ _ _ _ _ Htree).
  rewrite (tree_colors _ _ _ _ _ _ Htree) in *. lia.
Qed.

(** From a discovered vertex the walk back ends in the source, along edges
    of the graph taken backwards, in as many steps as the vertex is deep; the
    vector takes one more element than that. *)
Lemma store_path_loop_tree G s rank A colors preds k v acc fuel :
  search_tree G s rank A colors preds →
  nonwhite colors v → rank v ≤ k → k < fuel →
  (N.of_nat (length acc + k) < vector_max_size)%N →
  ∃ chain,
    store_path_loop fuel preds s v acc = Done (acc ++ chain) ∧
    path_from_to G s v (reverse chain) ∧
    hops (reverse chain) = rank v.
Proof.
  intros Htree. revert v acc fuel.
  induction k as [|k IH]; intros v acc fuel Hv Hk Hfuel Hlen.
  - destruct (decide (v = s)) as [->|Hne].
    + exists [s]. rewrite store_path_loop_done, push_back_Done by lia.
      split_and!; [done| |].
      * apply path_from_to_refl.
      * by destruct (tree_source _ _ _ _ _ _ Htree) as (_ & _ & ->).
    + destruct (tree_parent _ _ _ _ _ _ Htree v Hv Hne) as (u & _ & _ & _ & Hr). lia.
  - destruct (decide (v = s)) as [->|Hne].
    + exists [s]. rewrite store_path_loop_done, push_back_Done by lia.
      split_and!; [done| |].
      * apply path_from_to_refl.
      * by destruct (tree_source _ _ _ _ _ _ Htree) as (_ & _ & ->).
    + destruct (tree_parent _ _ _ _ _ _ Htree v Hv Hne) as (u & Hp & Huv & Hu & Hr).
      destruct fuel as [|fuel]; [lia|].
      destruct (IH u (acc ++ [v]) fuel Hu) as (chain & Hrun & Hpath & Hhops);
        [lia|lia|rewrite length_app; simpl; lia|].
      exists (v :: chain). split_and!.
      * rewrite (store_path_loop_step _ _ _ _ _ _ Hne Hp).
        rewrite push_back_Done, bind_Done, Hrun by lia.
        by rewrite <- app_assoc.
      * rewrite reverse_cons. by eapply path_from_to_snoc.
      * rewrite reverse_cons. destruct Hpath as (_ & Hlast & _).
        rewrite (hops_snoc _ u v Hlast). lia.
Qed.

Lemma search_tree_no_gray G s rank colors preds v :
  search_tree G s rank [] colors preds → colors !! v ≠ Some gray_color.
Proof.
  intros Htree Hv. apply (tree_gray _ _ _ _ _ _ Htree) in Hv.
  by apply elem_of_nil in Hv.
Qed.

Lemma search_tree_black G s rank colors preds v :
  search_tree G s rank [] colors preds →
  nonwhite colors v ↔ colors !! v = Some black_color.
Proof.
  intros Htree. split; [|apply black_nonwhite].
  intros (c & Hc & Hne). destruct c; [done| |done].
  by apply (search_tree_no_gray _ _ _ _ _ _ Htree) in Hc.
Qed.

(** When the search has ended, what a path from a black vertex reaches is
    black and at most as deep as the start plus the length of the path. *)
Lemma search_tree_closed G s rank colors preds q a d :
  search_tree G s rank [] colors preds →
  colors !! a = Some black_color → path_from_to G a d q →
  colors !! d = Some black_color ∧ rank d ≤ rank a + hops q.
Proof.
  intros Htree. revert a. induction q as [|x q IH]; intros a Ha (Hhd & Hlast & Hp);
    [done|].
  simpl in Hhd. simplify_eq. destruct q as [|b q].
  - simpl in Hlast. simplify_eq. split; [done|lia].
  - rewrite consecutive_cons in Hp. apply Forall_cons in Hp as [Hab Hp].
    rewrite last_cons_cons in Hlast. simpl in Hab.
    destruct (tree_closed _ _ _ _ _ _ Htree a b Ha Hab) as [Hb Hrb].
    apply (search_tree_black _ _ _ _ _ _ Htree) in Hb.
    destruct (IH b Hb) as [Hd Hrd]; [done|].
    split; [done|]. rewrite hops_cons. lia.
Qed.

Lemma search_tree_source_black G s rank colors preds :
  search_tree G s rank [] colors preds →
  colors !! s = Some black_color ∧ rank s = 0.
Proof.
  intros Htree. destruct (tree_source _ _ _ _ _ _ Htree) as (Hs & _ & Hr).
  split; [|done]. by apply (search_tree_black _ _ _ _ _ _ Htree).
Qed.

Lemma resolve_lt (G : graph_t matrix) name v :
  resolve name G = Some v → v < num_vertices G.
Proof.
  intros Hv%resolve_Some. apply lookup_lt_Some in Hv.
  unfold vertex_names in Hv. by rewrite length_fmap in Hv.
Qed.

Lemma path_from_to_end_lt G s d q :
  graph_wf G → s < num_vertices G → path_from_to G s d q → d < num_vertices G.
Proof.
  intros Hwf. revert s. induction q as [|x q IH]; intros s Hs (Hhd & Hlast & Hp);
    [done|].
  simpl in Hhd. simplify_eq. destruct q as [|b q].
  - simpl in Hlast. by simplify_eq.
  - rewrite consecutive_cons in Hp. apply Forall_cons in Hp as [Hsb Hp].
    rewrite last_cons_cons in Hlast.
    apply (IH b); [by eapply has_edge_lt|done].
Qed.

(** X1: the search ends within as many dequeues as the graph has vertices,
    with an empty queue, and has then turned black exactly the vertices that a
    path leads to from the source; the others are still white. *)
Theorem breadth_first_search_reaches G s fuel :
  graph_wf G → num_vertices G ≤ graph_size → s < num_vertices G →
  num_vertices G ≤ fuel →
  ∃ final,
    breadth_first_search fuel G s (<[s:=s]> (replicate graph_size 0)) = Done final ∧
    Q final = [] ∧
    (∀ d, color final !! d = Some black_color ↔ ∃ q, path_from_to G s d q) ∧
    (∀ d, d < num_vertices G →
       color final !! d = Some black_color ∨ color final !! d = Some white_color).
Proof.
  intros Hwf Hsize Hs Hfuel.
  destruct (breadth_first_search_tree G s fuel Hwf Hsize Hs Hfuel)
    as (final & rank & Hrun & HQ & Htree).
  exists final. split_and!; [done|done| |].
  - intros d. split.
    + intros Hd%black_nonwhite.
      pose proof (search_tree_rank_lt _ _ _ _ _ _ _ Htree Hd) as Hdeep.
      destruct (store_path_loop_tree G s rank [] _ _ (rank d) d [] (S (rank d))
                  Htree Hd) as (chain & _ & Hpath & _); [lia|lia| |].
      { unfold vector_max_size, graph_size in *. simpl. lia. }
      by exists (reverse chain).
    + intros [q Hq].
      destruct (search_tree_source_black _ _ _ _ _ Htree) as [Hsb _].
      by destruct (search_tree_closed _ _ _ _ _ _ _ _ Htree Hsb Hq).
  - intros d Hd. rewrite <- (tree_colors _ _ _ _ _ _ Htree) in Hd.
    destruct (lookup_lt_is_Some_2 _ _ Hd) as [c Hc]. destruct c; [by right| |by left].
    by apply (search_tree_no_gray _ _ _ _ _ _ Htree) in Hc.
Qed.

Lemma discover_finds_shortest G sv dv fuel q :
  graph_wf G → num_vertices G ≤ graph_size → sv < num_vertices G →
  num_vertices G ≤ fuel → path_from_to G sv dv q →
  ∃ path,
    discover fuel G sv dv = Done path ∧
    path_from_to G sv dv path ∧
    ∀ q', path_from_to G sv dv q' → hops path ≤ hops q'.
Proof.
  intros Hwf Hsize Hs Hfuel Hq.
  destruct (breadth_first_search_tree G sv fuel Hwf Hsize Hs Hfuel)
    as (final & rank & Hrun & HQ & Htree).
  destruct (search_tree_source_black _ _ _ _ _ Htree) as [Hsb Hrs].
  destruct (search_tree_closed _ _ _ _ _ _ _ _ Htree Hsb Hq) as [Hd _].
  apply black_nonwhite in Hd.
  assert (rank dv < fuel) as Hrank.
  { pose proof (tree_bound _ _ _ _ _ _ Htree dv Hd).
    pose proof (count_nonwhite_le (color final)).
    rewrite (tree_colors _ _ _ _ _ _ Htree) in *. lia. }
  pose proof (search_tree_rank_lt _ _ _ _ _ _ _ Htree Hd) as Hdeep.
  destruct (store_path_loop_tree G sv rank [] _ _ (rank dv) dv [] fuel Htree Hd)
    as (chain & Hwalk & Hpath & Hhops); [lia|lia| |].
  { unfold vector_max_size, graph_size in *. simpl. lia. }
  exists (reverse chain). split_and!; [|done|].
  - rewrite discover_unfold by lia. rewrite Hrun, bind_Done, Hwalk. done.
  - intros q' Hq'.
    destruct (search_tree_closed _ _ _ _ _ _ _ _ Htree Hsb Hq') as [_ Hle]. lia.
Qed.

(** X2: where a path leads from the source to the destination, the search and
    the walk back find one, within the budget of the number of vertices, and
    no path between the two has fewer edges. *)
Theorem discover_shortest_path G sv dv fuel q :
  graph_wf G → num_vertices G ≤ graph_size → sv < num_vertices G →
  num_vertices G ≤ fuel → path_from_to G sv dv q →
  ∃ path,
    discover fuel G sv dv = Done path ∧
    path_from_to G sv dv path ∧
    ∀ q', path_from_to G sv dv q' → hops path ≤ hops q'.
Proof. apply discover_finds_shortest. Qed.

Lemma find_out_edge_Some v el :
  v ∈ m_target <$> el → is_Some (find_out_edge v el).
Proof.
  intros Hv. destruct (find_out_edge v el) eqn:Hf; [by eexists|].
  by apply find_out_edge_None in Hf.
Qed.

Lemma multiply_along_cons G a b rest ans :
  multiply_along G (a :: b :: rest) ans =
  (e ← edge a b G; d ← edge_bundle e.1;
   multiply_along G (b :: rest) (prod (conv_matrix d) ans)).
Proof. reflexivity. Qed.

Lemma first_registered_has_edge G a b :
  has_edge G a b ↔ is_Some (first_registered G a b).
Proof.
  unfold first_registered. rewrite has_edge_lookup. split.
  - intros (sv & -> & Hb). simpl.
    destruct (find_out_edge_Some _ _ Hb) as [d ->]. by eexists.
  - intros [m Hm]. destruct (G !! a) as [sv|]; [|done]. simpl in Hm.
    exists sv. split; [done|].
    destruct (decide (b ∈ m_target <$> m_out_edges sv)) as [|Hno]; [done|].
    apply find_out_edge_None in Hno. by rewrite Hno in Hm.
Qed.

Lemma edge_first_registered G a b m :
  first_registered G a b = Some m →
  ∃ d, edge a b G = Done ({| m_source := a; m_etarget := b; m_eproperty := Some d |},
                          true) ∧
       conv_matrix d = m.
Proof.
  unfold first_registered, edge. destruct (G !! a) as [sv|]; [|done]. simpl.
  destruct (find_out_edge b (m_out_edges sv)) as [d|]; [|done].
  intros [= <-]. by exists d.
Qed.

(** Along vertices joined by edges the composition loop completes, with the
    product of the first registered matrix of each pair in turn. *)
Lemma multiply_along_path G p v :
  p ≠ [] → Forall (λ ab, has_edge G ab.1 ab.2) (consecutive p) →
  ∃ M, multiply_along G p v = Done M ∧
       compose_along (first_registered G) (consecutive p) v = Some M.
Proof.
  revert v. induction p as [|a p IH]; intros v Hne Hp; [done|].
  destruct p as [|b p].
  - by exists v.
  - rewrite consecutive_cons in Hp. apply Forall_cons in Hp as [Hab Hp].
    apply first_registered_has_edge in Hab as [m Hm]. simpl in Hm.
    destruct (edge_first_registered _ _ _ _ Hm) as (d & He & <-).
    destruct (IH (prod (conv_matrix d) v)) as (M & Hrun & Hspec); [done|done|].
    exists M. split.
    + by rewrite multiply_along_cons, He.
    + rewrite consecutive_cons. simpl. by rewrite Hm.
Qed.

(** X3: for registered names with a path from the source to the destination,
    [convert]'s code returns a result on any well-formed catalog of at most
    [graph_size] vertices: the input multiplied along a path of the fewest
    edges by the first matrix registered for each pair. *)
Theorem convert_in_reachable G src dest sv dv fuel q v :
  graph_wf G → num_vertices G ≤ graph_size →
  resolve src G = Some sv → resolve dest G = Some dv →
  num_vertices G ≤ fuel → path_from_to G sv dv q →
  ∃ path M,
    discover fuel G sv dv = Done path ∧
    path_from_to G sv dv path ∧ hops path ≤ hops q ∧
    compose_along (first_registered G) (consecutive path) v = Some M ∧
    convert_in fuel G src dest v = Done M.
Proof.
  intros Hwf Hsize Hsrc Hdest Hfuel Hq.
  destruct (discover_finds_shortest G sv dv fuel q Hwf Hsize) as
    (path & Hdisc & Hpath & Hmin); [by eapply resolve_lt|done|done|].
  destruct (multiply_along_path G path v) as (M & Hrun & Hspec).
  { destruct Hpath as (Hhd & _). by destruct path. }
  { by destruct Hpath as (_ & _ & Hp). }
  exists path, M. split_and!; [done|done|by apply Hmin|done|].
  unfold convert_in. by rewrite Hsrc, Hdest, Hdisc.
Qed.

(** The vector of the walk back fails only in a walk that does not end: on a
    well-formed catalog of at most [graph_size] vertices [convert]'s code ends
    with [BadAlloc] only for registered names with no path from the source to
    the destination. *)
Lemma convert_in_bad_alloc G fuel src dest v :
  graph_wf G → num_vertices G ≤ graph_size →
  convert_in fuel G src dest v = BadAlloc →
  ∃ sv dv, resolve src G = Some sv ∧ resolve dest G = Some dv ∧
           ¬ ∃ q, path_from_to G sv dv q.
Proof.
  intros Hwf Hsize Hrun.
  destruct (resolve src G) as [sv|] eqn:Hsrc;
    [|unfold convert_in in Hrun; by rewrite Hsrc in Hrun].
  destruct (resolve dest G) as [dv|] eqn:Hdest;
    [|unfold convert_in in Hrun; by rewrite Hsrc, Hdest in Hrun].
  exists sv, dv. split_and!; [done|done|]. intros [q Hq].
  destruct (discover_finds_shortest G sv dv (num_vertices G `max` fuel) q Hwf Hsize)
    as (path & Hdisc & Hpath & _); [by eapply resolve_lt|lia|done|].
  destruct (multiply_along_path G path v) as (M & Hmul & _).
  { destruct Hpath as (Hhd & _). by destruct path. }
  { by destruct Hpath as (_ & _ & Hp). }
  assert (convert_in (num_vertices G `max` fuel) G src dest v = BadAlloc) as Hbig.
  { apply convert_in_mono with fuel; [done|done|lia]. }
  unfold convert_in in Hbig. rewrite Hsrc, Hdest, Hdisc in Hbig.
  rewrite bind_Done, Hmul in Hbig. done.
Qed.

(** X5: the only [std::range_error] that [convert]'s code raises is the one for
    a name that is not registered: it is thrown exactly when the source name
    is unknown, or the source is known and the destination name is unknown,
    with the message that names the one it looked for; the search, the walk
    back and the composition raise no [std::range_error].  (The exception of
    the vector of the walk back is the outcome [BadAlloc], not [Throw].) *)
Theorem convert_in_throws_only_not_found G fuel src dest v what :
  convert_in fuel G src dest v = Throw what ↔
  ((src ∉ vertex_names G) ∧ what = ("Not found " +:+ src)) ∨
  (src ∈ vertex_names G ∧ (dest ∉ vertex_names G) ∧
   what = ("Not found " +:+ dest)).
Proof.
  rewrite <- !resolve_None. unfold convert_in.
  destruct (resolve src G) as [sv|] eqn:Hsrc.
  - assert (src ∈ vertex_names G) as Hin.
    { apply resolve_Some in Hsrc. by eapply list_elem_of_lookup_2. }
    destruct (resolve dest G) as [dv|] eqn:Hdest.
    + split; [|by intros [[? _]|(_ & ? & _)]].
      destruct (discover fuel G sv dv) as [path|w| | |] eqn:Hd; simpl; try done.
      * by intros ?%multiply_along_no_throw.
      * by apply discover_no_throw in Hd.
    + split.
      * intros [= <-]. by right.
      * by intros [[? _]|(_ & _ & ->)].
  - split.
    + intros [= <-]. by left.
    + intros [[_ ->]|(Hin & _)]; [done|].
      apply resolve_is_Some in Hin as [? Hin]. congruence.
Qed.
End BreadthFirst.

(** ** Building a graph and looking names and edges up in it *)
Section Building.
Context {matrix : Type}.
Implicit Types (G : graph_t matrix) (el : list (stored_edge matrix))
  (vs : list (stored_vertex matrix)).

Lemma scan_vertices_first name vs v0 v :
  scan_vertices name vs v0 = Some v ↔
  v0 ≤ v ∧ vertex_names vs !! (v - v0) = Some name ∧
  ∀ i, i < v - v0 → vertex_names vs !! i ≠ Some name.
Proof.
  revert v0. induction vs as [|sv vs IH]; intros v0; simpl.
  - split; [done|]. by intros (_ & ? & _).
  - case_decide as Hname.
    + split.
      * intros [= <-]. rewrite Nat.sub_diag. split_and!; [done|by rewrite Hname|].
        intros i Hi. lia.
      * intros (Hle & Hv & Hfirst). destruct (v - v0) as [|k] eqn:Hk.
        -- f_equal. lia.
        -- destruct (Hfirst 0); [lia|]. simpl. by rewrite Hname.
    + rewrite IH. split.
      * intros (Hle & Hv & Hfirst). split_and!; [lia| |].
        -- by replace (v - v0) with (S (v - S v0)) by lia.
        -- intros [|i] Hi; simpl; [congruence|]. apply Hfirst. lia.
      * intros (Hle & Hv & Hfirst).
        destruct (v - v0) as [|k] eqn:Hk; [simpl in Hv; congruence|].
        split_and!; [lia| |].
        -- by replace (v - S v0) with k by lia.
        -- intros i Hi. apply (Hfirst (S i)). lia.
Qed.

(** X6: the scanning loop finds the first vertex that carries the name: a vertex
    is the result exactly when it has the name and no vertex before it has;
    so where no name is given twice, every vertex is found by its name. *)
Theorem resolve_first_match G :
  (∀ name v,
     resolve name G = Some v ↔
     vertex_names G !! v = Some name ∧
     ∀ u, u < v → vertex_names G !! u ≠ Some name) ∧
  (NoDup (vertex_names G) →
   ∀ name v, vertex_names G !! v = Some name → resolve name G = Some v).
Proof.
  assert (∀ name v,
     resolve name G = Some v ↔
     vertex_names G !! v = Some name ∧
     ∀ u, u < v → vertex_names G !! u ≠ Some name) as Hfirst.
  { intros name v. unfold resolve. rewrite scan_vertices_first, Nat.sub_0_r.
    split; [by intros (_ & ? & ?)|]. intros [? ?]. split_and!; [lia|done|done]. }
  split; [done|]. intros Hnd name v Hv. apply Hfirst. split; [done|].
  intros u Hu Hname. pose proof (NoDup_lookup _ _ _ _ Hnd Hv Hname). lia.
Qed.

Lemma scan_vertices_app name vs vs' v0 :
  scan_vertices name (vs ++ vs') v0 =
  match scan_vertices name vs v0 with
  | Some v => Some v
  | None => scan_vertices name vs' (v0 + length vs)
  end.
Proof.
  revert v0. induction vs as [|sv vs IH]; intros v0; simpl.
  - by rewrite Nat.add_0_r.
  - case_decide; [done|]. rewrite IH.
    by replace (S v0 + length vs) with (v0 + S (length vs)) by lia.
Qed.

Lemma has_edge_app_isolated G vs :
  Forall (λ sv, m_out_edges sv = []) vs →
  ∀ a b, has_edge (G ++ vs) a b ↔ has_edge G a b.
Proof.
  intros Hvs a b. rewrite !has_edge_lookup. split.
  - intros (sv & Hsv & Hb). apply lookup_app_Some in Hsv as [Hsv|[_ Hsv]].
    + by exists sv.
    + rewrite Forall_forall in Hvs.
      rewrite (Hvs sv) in Hb by by eapply list_elem_of_lookup_2.
      by apply elem_of_nil in Hb.
  - intros (sv & Hsv & Hb). exists sv. split; [|done]. by apply lookup_app_l_Some.
Qed.

Lemma graph_wf_has_edge G :
  graph_wf G ↔ ∀ a b, has_edge G a b → b < num_vertices G.
Proof.
  unfold graph_wf, has_edge. rewrite Forall_forall. split.
  - intros Hwf a b Hab. by apply (Hwf (a, b)).
  - intros Hwf [a b] Hab. exact (Hwf a b Hab).
Qed.

(** X7: [add_vertex] returns the next free descriptor and adds a vertex with no
    edge; the new vertex is found by its name only if no vertex had the name
    before, and the vertices that were there are found as before. *)
Theorem add_vertex_registers G p :
  (add_vertex p G).1 = num_vertices G ∧
  num_vertices (add_vertex p G).2 = S (num_vertices G) ∧
  vertex_names (add_vertex p G).2 = vertex_names G ++ [coordinate_name p] ∧
  (∀ a b, has_edge (add_vertex p G).2 a b ↔ has_edge G a b) ∧
  (∀ name,
     resolve name (add_vertex p G).2 =
     match resolve name G with
     | Some v => Some v
     | None => if decide (name = coordinate_name p) then Some (num_vertices G)
               else None
     end) ∧
  (graph_wf G → graph_wf (add_vertex p G).2).
Proof.
  assert (∀ a b, has_edge (add_vertex p G).2 a b ↔ has_edge G a b) as Hedge.
  { apply has_edge_app_isolated. by apply Forall_singleton. }
  split_and!; try done.
  - unfold add_vertex, num_vertices. simpl. rewrite length_app. simpl. lia.
  - unfold add_vertex, vertex_names. simpl. by rewrite fmap_app.
  - intros name. unfold resolve, add_vertex. simpl. rewrite scan_vertices_app.
    destruct (scan_vertices name G 0); [done|]. simpl. by case_decide.
  - rewrite !graph_wf_has_edge. intros Hwf a b Hab%Hedge.
    specialize (Hwf a b Hab). unfold add_vertex, num_vertices in *. simpl.
    rewrite length_app. simpl. lia.
Qed.





Lemma has_edge_resize n G a b : has_edge (resize n G) a b ↔ has_edge G a b.
Proof.
  apply has_edge_app_isolated. by apply Forall_replicate.
Qed.


End Building.

(** ** Conversions through an intermediate frame *)
Section CatalogRoutes.
Context {CoordinateType Angle matrix : Type}.
Context `{!Ublas matrix, !Utility CoordinateType Angle matrix}.
Variables phi st obliquity : Angle.

Local Abbreviation cat := (catalog phi st obliquity).
Local Abbreviation found := (discovered phi st obliquity).

Lemma convert_in_catalog_fuel fuel src dest v :
  graph_size ≤ fuel →
  convert_in fuel cat src dest v = convert_in graph_size cat src dest v.
Proof.
  intros Hfuel. apply convert_in_mono with graph_size; [done| |done].
  unfold convert_in.
  destruct (resolve src cat) as [sv|] eqn:Hsrc; [|done].
  destruct (resolve dest cat) as [dv|] eqn:Hdest; [|done].
  apply resolve_catalog_lt in Hsrc, Hdest.
  rewrite (discover_catalog phi st obliquity) by done.
  apply multiply_along_not_out_of_fuel.
Qed.

Ltac by_names H :=
  repeat (apply elem_of_cons in H as [H|H]; [injection H as -> ->|]);
  [..|by apply elem_of_nil in H].

(** X9: converting through a frame that lies on the discovered path is the same
    as converting to that frame first and from it afterwards: the second
    conversion, given the result of the first as its vector, returns what the
    direct conversion returns. *)
Theorem convert_through_intermediate src mid dest a b c fuel source_coordinate :
  resolve src cat = Some a → resolve mid cat = Some b → resolve dest cat = Some c →
  graph_size ≤ fuel → b ∈ found a c →
  convert fuel src dest phi st obliquity source_coordinate
  = convert fuel src mid phi st obliquity source_coordinate
    ≫= convert_in fuel cat mid dest.
Proof.
  intros Ha%resolve_catalog_inv Hb%resolve_catalog_inv Hc%resolve_catalog_inv
    Hfuel Hmid.
  unfold convert. rewrite !(convert_in_catalog_fuel fuel) by done.
  assert (∀ v, convert_in fuel cat mid dest v = convert_in graph_size cat mid dest v)
    as Hext by (intros v; by apply convert_in_catalog_fuel).
  transitivity (convert_in graph_size cat src mid (col_vec source_coordinate)
                ≫= convert_in graph_size cat mid dest).
  2: { destruct (convert_in graph_size cat src mid _); simpl; [apply eq_sym, Hext|done..]. }
  clear Hext Hfuel. generalize (col_vec source_coordinate). intros v.
  by_names Ha; by_names Hb; by_names Hc;
    first [ exfalso; revert Hmid; compute_done | vm_compute; reflexivity ].
Qed.

(** X10: the path discovered for the opposite direction is the same path
    taken backwards. *)
Theorem discover_opposite_direction src dest a b fuel :
  resolve src cat = Some a → resolve dest cat = Some b → graph_size ≤ fuel →
  ∃ path,
    discover fuel cat a b = Done path ∧
    discover fuel cat b a = Done (reverse path).
Proof.
  intros Ha%resolve_catalog_lt Hb%resolve_catalog_lt Hfuel.
  exists (found a b). rewrite !(discover_catalog phi st obliquity) by done.
  split; [done|]. f_equal. unfold graph_size in Ha, Hb.
  do 5 (destruct a as [|a];
    [do 5 (destruct b as [|b]; [vm_compute; reflexivity|]); lia|]).
  lia.
Qed.

(** The search and the walk back on the catalog, with the budget the catalog
    needs: every vertex is reached, no vertex but the source is its own
    predecessor, the vector of the walk takes at most [graph_size] elements,
    and a registered edge is found for every pair the composition reads. *)
Lemma catalog_search_walk s d :
  s < graph_size → d < graph_size →
  ∃ final store_path,
    breadth_first_search graph_size cat s (<[s:=s]> (replicate graph_size 0))
    = Done final ∧
    color final = replicate graph_size black_color ∧
    (∀ v, v ≠ s → predecessor final !! v ≠ Some v) ∧
    store_path_loop graph_size (predecessor final) s d [] = Done store_path ∧
    length store_path ≤ graph_size ∧
    found s d = reverse store_path ∧
    ∀ a b, (a, b) ∈ consecutive (reverse store_path) →
      has_edge cat a b ∧
      ∃ data, edge a b cat
              = Done ({| m_source := a; m_etarget := b; m_eproperty := Some data |},
                      true).
Proof.
  intros Hs Hd. unfold graph_size in Hs, Hd.
  do 5 (destruct s as [|s];
    [do 5 (destruct d as [|d];
       [eexists _, _; split_and!;
        [ vm_compute; reflexivity
        | reflexivity
        | intros v Hv;
          do 5 (destruct v as [|v]; [vm_compute; congruence|]); by vm_compute
        | vm_compute; reflexivity
        | vm_compute; lia
        | vm_compute; reflexivity
        | intros a b Hin; vm_compute in Hin;
          repeat (apply elem_of_cons in Hin as [[= -> ->]|Hin];
                  [split; [compute_done|eexists; vm_compute; reflexivity]|]);
          by apply elem_of_nil in Hin ]
       |]); lia|]).
  lia.
Qed.

(** X4: on the graph [convert] builds, the two situations its code does not
    guard against do not arise.  From every source vertex the search leaves
    every vertex black and no vertex but the source its own predecessor; the
    walk back from every destination ends, with at most [graph_size] elements
    in its vector; [boost::edge] finds a registered edge (second component
    [true], property present) for every consecutive pair of the discovered
    path; and whatever the budget, [convert]'s code ends neither with the
    exception of the vector nor with a read through a null edge property. *)
Theorem catalog_walk_ends_on_edges s d fuel :
  s < graph_size → d < graph_size → graph_size ≤ fuel →
  ∃ final store_path,
    breadth_first_search fuel cat s (<[s:=s]> (replicate graph_size 0)) = Done final ∧
    color final = replicate graph_size black_color ∧
    (∀ v, v ≠ s → predecessor final !! v ≠ Some v) ∧
    store_path_loop fuel (predecessor final) s d [] = Done store_path ∧
    length store_path ≤ graph_size ∧
    discover fuel cat s d = Done (reverse store_path) ∧
    (∀ a b, (a, b) ∈ consecutive (reverse store_path) →
       has_edge cat a b ∧
       ∃ data, edge a b cat
               = Done ({| m_source := a; m_etarget := b; m_eproperty := Some data |},
                       true)) ∧
    ∀ src dest v n,
      resolve src cat = Some s → resolve dest cat = Some d →
      convert_in n cat src dest v ≠ BadAlloc ∧
      convert_in n cat src dest v ≠ Undefined.
Proof.
  intros Hs Hd Hfuel.
  destruct (catalog_search_walk s d Hs Hd)
    as (final & store_path & Hbfs & Hcol & Hself & Hwalk & Hlen & Hfound & Hedges).
  exists final, store_path. split_and!; [|done|done| |done| |done|].
  - by apply breadth_first_search_mono with graph_size.
  - by apply store_path_loop_mono with graph_size.
  - rewrite <- Hfound. by apply discover_catalog.
  - intros src dest v n Hsrc Hdest.
    destruct (multiply_along_discovered phi st obliquity s d v Hs Hd)
      as (M & _ & _ & _ & Hmul).
    assert (convert_in (graph_size `max` n) cat src dest v = Done M) as Hdone.
    { unfold convert_in. rewrite Hsrc, Hdest.
      rewrite (discover_catalog phi st obliquity) by (done || lia).
      by rewrite bind_Done. }
    split; intros Hbad;
      apply convert_in_mono with (m := graph_size `max` n) in Hbad;
      (done || lia || congruence).
Qed.
End CatalogRoutes.

(** ** Concrete runs of the general results *)
Section MoreRuns.
Import Symbolic.

Local Abbreviation cat := (catalog (matrix := term) 1 2 3).

Lemma breadth_first_search_reaches_witness :
  ∃ final,
    breadth_first_search 5 Disconnected.G 1 (<[1:=1]> (replicate graph_size 0))
    = Done final ∧
    Q final = [] ∧
    (∀ d, color final !! d = Some black_color
          ↔ ∃ q, path_from_to Disconnected.G 1 d q) ∧
    (∀ d, d < num_vertices Disconnected.G →
       color final !! d = Some black_color ∨ color final !! d = Some white_color).
Proof.
  apply (breadth_first_search_reaches Disconnected.G 1 5).
  - compute_done.
  - vm_compute. lia.
  - vm_compute. lia.
  - vm_compute. lia.
Defined.

Lemma discover_shortest_path_witness :
  ∃ path,
    discover 5 cat 0 3 = Done path ∧
    path_from_to cat 0 3 path ∧
    ∀ q', path_from_to cat 0 3 q' → hops path ≤ hops q'.
Proof.
  apply (discover_shortest_path cat 0 3 5 [0; 1; 2; 3]).
  - compute_done.
  - vm_compute. lia.
  - vm_compute. lia.
  - vm_compute. lia.
  - compute_done.
Defined.

Lemma convert_in_reachable_witness :
  ∃ path M,
    discover 5 Disconnected.G 1 2 = Done path ∧
    path_from_to Disconnected.G 1 2 path ∧ hops path ≤ hops [1; 2] ∧
    compose_along (first_registered Disconnected.G) (consecutive path)
      (ColumnVector 0 0) = Some M ∧
    convert_in 5 Disconnected.G "Equatorial_HA_Dec" "Equatorial_RA_Dec"
      (ColumnVector 0 0) = Done M.
Proof.
  apply (convert_in_reachable Disconnected.G
           "Equatorial_HA_Dec" "Equatorial_RA_Dec" 1 2 5 [1; 2] (ColumnVector 0 0)).
  - compute_done.
  - vm_compute. lia.
  - reflexivity.
  - reflexivity.
  - vm_compute. lia.
  - compute_done.
Defined.

Lemma catalog_walk_ends_on_edges_witness :
  ∃ final store_path,
    breadth_first_search 5 cat 1 (<[1:=1]> (replicate graph_size 0)) = Done final ∧
    color final = replicate graph_size black_color ∧
    (∀ v, v ≠ 1 → predecessor final !! v ≠ Some v) ∧
    store_path_loop 5 (predecessor final) 1 3 [] = Done store_path ∧
    length store_path ≤ graph_size ∧
    discover 5 cat 1 3 = Done (reverse store_path) ∧
    (∀ a b, (a, b) ∈ consecutive (reverse store_path) →
       has_edge cat a b ∧
       ∃ data, edge a b cat
               = Done ({| m_source := a; m_etarget := b; m_eproperty := Some data |},
                       true)) ∧
    ∀ src dest v n,
      resolve src cat = Some 1 → resolve dest cat = Some 3 →
      convert_in n cat src dest v ≠ BadAlloc ∧
      convert_in n cat src dest v ≠ Undefined.
Proof.
  apply (catalog_walk_ends_on_edges (matrix := term) 1 2 3 1 3 5).
  - vm_compute. lia.
  - vm_compute. lia.
  - vm_compute. lia.
Defined.

Lemma convert_in_throws_only_not_found_witness :
  convert_in 0 cat "Lunar" "Horizon" (ColumnVector 0 0) = Throw "Not found Lunar".
Proof.
  apply (convert_in_throws_only_not_found cat 0 "Lunar" "Horizon"
           (ColumnVector 0 0) "Not found Lunar").
  left. split; [compute_done|reflexivity].
Defined.

Lemma resolve_first_match_witness : resolve "Ecliptic" cat = Some 3.
Proof.
  apply (proj2 (resolve_first_match cat)); [compute_done|reflexivity].
Defined.

Lemma add_vertex_registers_witness :
  graph_wf (add_vertex {| coordinate_name := "Lunar" |} cat).2.
Proof.
  apply (add_vertex_registers cat {| coordinate_name := "Lunar" |}). compute_done.
Defined.


Lemma getters_after_construct_witness :
  get_lat_lon_dist (CoordinateType := nat) id id id
    (make_spherical_equatorial_representation id id id [# 0; 0; 0] 1 2 3)
  = (1, 2, 3).
Proof.
  apply (getters_after_construct (CoordinateType := nat) id id id id id id);
    reflexivity.
Defined.

Lemma make_as_keeps_point_witness :
  make_spherical_equatorial_representation_as (CoordinateType := nat)
    id id id id id id id id id [# 0; 0; 0] {| point := [# 1; 2; 3] |}
  = {| point := [# 1; 2; 3] |}.
Proof.
  apply (make_as_keeps_point (CoordinateType := nat) id id id id id id id id id);
    reflexivity.
Defined.

Lemma convert_through_intermediate_witness :
  convert 5 "Horizon" "Ecliptic" 1 2 3 {| get_point := (7, 8) |}
  = convert 5 "Horizon" "Equatorial_RA_Dec" 1 2 3 {| get_point := (7, 8) |}
    ≫= convert_in 5 cat "Equatorial_RA_Dec" "Ecliptic".
Proof.
  apply (convert_through_intermediate 1 2 3
           "Horizon" "Equatorial_RA_Dec" "Ecliptic" 0 2 3 5).
  - reflexivity.
  - reflexivity.
  - reflexivity.
  - vm_compute. lia.
  - compute_done.
Defined.

Lemma discover_opposite_direction_witness :
  ∃ path,
    discover 5 cat 0 4 = Done path ∧ discover 5 cat 4 0 = Done (reverse path).
Proof.
  apply (discover_opposite_direction 1 2 3 "Horizon" "Galactic" 0 4 5).
  - reflexivity.
  - reflexivity.
  - vm_compute. lia.
Defined.
End MoreRuns.
